(** * Fast IPC handler for FreeRTOS: a model of IPCHandler.c and its properties

    The development embeds [IPCHandler.c] (with the constants and types of
    [IPCHandler.h]) as state-passing functions over the two static variables
    of the module, [IPC_arHandler] and [IPC_u8HandlerCnt].  C integers are
    integers of [Z] with the conversions of the source written out; an array
    is a list of its declared length, and an access outside an array has no
    meaning in C: the model returns [None] there. *)

From Stdlib Require Import ZArith Lia.
From Stdlib.Strings Require Import Byte.
From stdpp Require Import base option list.

Local Open Scope Z_scope.

(** ** Integer conversions and array accesses *)

(** Conversion to [uint8_t] and to [uint32_t]. *)
Definition to_uint8 (x : Z) : Z := x mod 256.
Definition to_uint32 (x : Z) : Z := x mod 2 ^ 32.

(** [a[i]] read, and [a[i] = v] write, defined inside the array only. *)
Definition array_get {A} (a : list A) (i : Z) : option A :=
  if 0 <=? i then a !! Z.to_nat i else None.

Definition array_set {A} (a : list A) (i : Z) (v : A) : option (list A) :=
  if (0 <=? i) && (i <? Z.of_nat (length a)) then Some (<[Z.to_nat i := v]> a)
  else None.

(** ** IPCHandler.h *)

Definition IPC_MAX_DATA_LENGTH : Z := 512.
Definition IPC_MSG_QUEUE_LENGTH : Z := 16.

Inductive IPC_eMsgType_t : Set :=
  | E_IPC_MSG_TYPE_1
  | E_IPC_MSG_TYPE_2.

(** Task identifiers are the values of a C enum that the application
    extends; they are kept as the integers they are. *)
Definition IPC_eTaskID_t : Set := Z.
Definition E_IPC_TASK_ID_1 : IPC_eTaskID_t := 1.
Definition E_IPC_TASK_ID_2 : IPC_eTaskID_t := 2.
Definition E_IPC_TASK_ID_LAST : IPC_eTaskID_t := 255.

Record IPC_sMsg_t : Set := mkMsg {
  eIPC_MsgType : IPC_eMsgType_t;
  u8Data : list byte;
  u32DataLen : Z
}.

Inductive IPC_eError_t : Set :=
  | E_IPC_SUCCESS
  | E_IPC_ERR_EXISTS
  | E_IPC_ERR_CREATE_FAIL
  | E_IPC_ERR_NO_HANDLER
  | E_IPC_ERR_SEND_FAIL
  | E_IPC_ERR_RECV_FAIL
  | E_IPC_RECV_MORE.

#[global] Instance IPC_eError_t_eq_dec : EqDecision IPC_eError_t.
Proof. solve_decision. Defined.

(** FreeRTOS: a task handle is a pointer, [xTaskNotifyGive] returns a
    [BaseType_t] that is [pdPASS] when the notification was delivered. *)
Definition TaskHandle_t : Set := Z.
Definition NULL : TaskHandle_t := 0.
Definition BaseType_t : Set := Z.
Definition pdPASS : BaseType_t := 1.
Definition pdFAIL : BaseType_t := 0.

(** ** IPCHandler.c: types and static variables *)

Definition IPC_HANDLER_CNT_MAX : Z := E_IPC_TASK_ID_LAST.

Record IPC_sMsgQueue_t : Set := mkQueue {
  msgQueue : list IPC_sMsg_t;
  queueTail : Z;
  queueHead : Z;
  queueSize : Z
}.

Record IPC_sHandler_t : Set := mkHandler {
  recvId : IPC_eTaskID_t;
  handle : TaskHandle_t;
  queue : IPC_sMsgQueue_t
}.

(** The two static variables of the module. *)
Record state : Set := mkState {
  IPC_arHandler : list IPC_sHandler_t;
  IPC_u8HandlerCnt : Z
}.

(** ** IPCHandler.c: code *)

(** The loop of [IPC_getHandlerIdx], over the entries [i], [i+1], ... *)
Fixpoint IPC_getHandlerIdx_loop (hs : list IPC_sHandler_t) (i : Z)
    (taskID : IPC_eTaskID_t) : Z :=
  match hs with
  | [] => -1
  | h :: hs' =>
      if recvId h =? taskID then i
      else IPC_getHandlerIdx_loop hs' (i + 1) taskID
  end.

Definition IPC_getHandlerIdx (st : state) (taskID : IPC_eTaskID_t) : Z :=
  if 0 <? IPC_u8HandlerCnt st then
    IPC_getHandlerIdx_loop
      (take (Z.to_nat (IPC_u8HandlerCnt st)) (IPC_arHandler st)) 0 taskID
  else -1.

Definition IPC_initIPCHandler (st : state) : state :=
  {| IPC_arHandler := IPC_arHandler st; IPC_u8HandlerCnt := 0 |}.

Definition IPC_createHandler (st : state) (aTaskID : IPC_eTaskID_t)
    (aHandle : TaskHandle_t) : option (IPC_eError_t * state) :=
  if aHandle =? NULL then Some (E_IPC_ERR_CREATE_FAIL, st)
  else if IPC_u8HandlerCnt st =? IPC_HANDLER_CNT_MAX then
    Some (E_IPC_ERR_CREATE_FAIL, st)
  else if negb (IPC_getHandlerIdx st aTaskID =? -1) then
    Some (E_IPC_ERR_EXISTS, st)
  else
    psHandler ← array_get (IPC_arHandler st) (IPC_u8HandlerCnt st);
    let q := queue psHandler in
    let h' :=
      {| recvId := aTaskID;
         handle := aHandle;
         queue := {| msgQueue := msgQueue q;
                     queueTail := 0; queueHead := 0; queueSize := 0 |} |} in
    arr' ← array_set (IPC_arHandler st) (IPC_u8HandlerCnt st) h';
    Some (E_IPC_SUCCESS,
          {| IPC_arHandler := arr';
             IPC_u8HandlerCnt := to_uint8 (IPC_u8HandlerCnt st + 1) |}).

(** The copy loop of [IPC_send]: [n] rounds from index [i],
    [u8Data[i] = apData[i]]. *)
Fixpoint copy_data (n : nat) (i : Z) (apData : list byte) (buf : list byte)
    : option (list byte) :=
  match n with
  | O => Some buf
  | S n' =>
      b ← array_get apData i;
      buf' ← array_set buf i b;
      copy_data n' (i + 1) apData buf'
  end.

(** Lines 144-165 of [IPC_send], on the queue of the receiver. *)
Definition enqueue (q : IPC_sMsgQueue_t) (aType : IPC_eMsgType_t)
    (apData : list byte) (aDataSize : Z) : option IPC_sMsgQueue_t :=
  let idx := queueTail q in
  slot ← array_get (msgQueue q) idx;
  data ← copy_data (Z.to_nat aDataSize) 0 apData (u8Data slot);
  msgs ← array_set (msgQueue q) idx
           {| eIPC_MsgType := aType;
              u8Data := data;
              u32DataLen := to_uint32 aDataSize |};
  Some {| msgQueue := msgs;
          queueTail := if queueTail q =? IPC_MSG_QUEUE_LENGTH - 1 then 0
                       else to_uint8 (queueTail q + 1);
          queueHead := queueHead q;
          queueSize := to_uint8 (queueSize q + 1) |}.

(** The handler [h] with its queue replaced, and the state in which the
    handler at [idx] has the new queue: the writes through the pointer
    [queue = &(IPC_arHandler[handlerIdx].queue)]. *)
Definition with_queue (h : IPC_sHandler_t) (q : IPC_sMsgQueue_t) : IPC_sHandler_t :=
  {| recvId := recvId h; handle := handle h; queue := q |}.

Definition set_queue (st : state) (idx : Z) (h : IPC_sHandler_t)
    (q : IPC_sMsgQueue_t) : option state :=
  arr' ← array_set (IPC_arHandler st) idx (with_queue h q);
  Some {| IPC_arHandler := arr'; IPC_u8HandlerCnt := IPC_u8HandlerCnt st |}.

(** [handlerIdx] is a [uint8_t] in [IPC_send]: the [int] that
    [IPC_getHandlerIdx] returns is converted, and the converted value is
    compared with [-1] as an [int]. *)
Definition IPC_send (xTaskNotifyGive : TaskHandle_t → BaseType_t) (st : state)
    (aRecv : IPC_eTaskID_t) (aType : IPC_eMsgType_t) (apData : list byte)
    (aDataSize : Z) : option (IPC_eError_t * state) :=
  if IPC_MAX_DATA_LENGTH <=? aDataSize then Some (E_IPC_ERR_SEND_FAIL, st)
  else
    let handlerIdx := to_uint8 (IPC_getHandlerIdx st aRecv) in
    if handlerIdx =? -1 then Some (E_IPC_ERR_NO_HANDLER, st)
    else
      h ← array_get (IPC_arHandler st) handlerIdx;
      q' ← enqueue (queue h) aType apData aDataSize;
      st' ← set_queue st handlerIdx h q';
      if xTaskNotifyGive (handle h) =? pdPASS then Some (E_IPC_SUCCESS, st')
      else Some (E_IPC_ERR_SEND_FAIL, st').

(** Lines 204-217 of [IPC_receive]: the message at the head and the queue
    without it. *)
Definition dequeue (q : IPC_sMsgQueue_t) : option (IPC_sMsg_t * IPC_sMsgQueue_t) :=
  m ← array_get (msgQueue q) (queueHead q);
  Some (m,
        {| msgQueue := msgQueue q;
           queueTail := queueTail q;
           queueHead := if queueHead q =? IPC_MSG_QUEUE_LENGTH - 1 then 0
                        else to_uint8 (queueHead q + 1);
           queueSize := to_uint8 (queueSize q - 1) |}).

(** [apBuf] is the content of the caller's buffer before the call; the
    third component of the result is its content after the call. *)
Definition IPC_receive (st : state) (aRecv : IPC_eTaskID_t) (apBuf : IPC_sMsg_t)
    : option (IPC_eError_t * state * IPC_sMsg_t) :=
  let handlerIdx := IPC_getHandlerIdx st aRecv in
  if handlerIdx =? -1 then Some (E_IPC_ERR_NO_HANDLER, st, apBuf)
  else
    h ← array_get (IPC_arHandler st) handlerIdx;
    if queueSize (queue h) =? 0 then Some (E_IPC_ERR_RECV_FAIL, st, apBuf)
    else
      '(m, q') ← dequeue (queue h);
      st' ← set_queue st handlerIdx h q';
      if 0 <? queueSize q' then Some (E_IPC_RECV_MORE, st', m)
      else Some (E_IPC_SUCCESS, st', m).

(** ** The static storage at start-up, and small scenarios *)

Definition zero_msg : IPC_sMsg_t :=
  {| eIPC_MsgType := E_IPC_MSG_TYPE_1;
     u8Data := replicate (Z.to_nat IPC_MAX_DATA_LENGTH) x00;
     u32DataLen := 0 |}.

Definition zero_queue : IPC_sMsgQueue_t :=
  {| msgQueue := replicate (Z.to_nat IPC_MSG_QUEUE_LENGTH) zero_msg;
     queueTail := 0; queueHead := 0; queueSize := 0 |}.

Definition zero_handler : IPC_sHandler_t :=
  {| recvId := 0; handle := NULL; queue := zero_queue |}.

(** Static variables are zero before [main] runs. *)
Definition zero_state : state :=
  {| IPC_arHandler := replicate (Z.to_nat IPC_HANDLER_CNT_MAX) zero_handler;
     IPC_u8HandlerCnt := 0 |}.

Definition notify_pass : TaskHandle_t → BaseType_t := λ _, pdPASS.
Definition notify_fail : TaskHandle_t → BaseType_t := λ _, pdFAIL.

(** [IPC_createHandler] for each task ID of a list, the handle of task
    [id] being the address [4096 + id]; a call that has no meaning leaves
    the state as it is. *)
Definition create_all (st : state) (ids : list IPC_eTaskID_t) : state :=
  foldl (λ s id, match IPC_createHandler s id (4096 + id) with
                 | Some (_, s') => s'
                 | None => s
                 end) st ids.

(** As in [main]: the module is initialised and task 1 gets its handler. *)
Definition demo_state : state :=
  create_all (IPC_initIPCHandler zero_state) [E_IPC_TASK_ID_1].

Definition demo_handler : IPC_sHandler_t :=
  {| recvId := E_IPC_TASK_ID_1; handle := 4096 + E_IPC_TASK_ID_1;
     queue := zero_queue |}.

(** The tasks 1 to 254 have their handlers: one entry of the table is
    left. *)
Definition crowded_state : state :=
  create_all (IPC_initIPCHandler zero_state) (Z.of_nat <$> seq 1 254).

(** ** Views of the state used in the statements *)

(** The slot after [IPC_send] has written a message into it: the bytes
    after the first [aDataSize] keep what the slot held before. *)
Definition stored_msg (slot : IPC_sMsg_t) (aType : IPC_eMsgType_t)
    (apData : list byte) (aDataSize : Z) : IPC_sMsg_t :=
  {| eIPC_MsgType := aType;
     u8Data := take (Z.to_nat aDataSize) apData
               ++ drop (Z.to_nat aDataSize) (u8Data slot);
     u32DataLen := to_uint32 aDataSize |}.


(** The handler registered for a task, found as the code finds it, and
    its queue. *)
Definition handler_of (st : state) (id : IPC_eTaskID_t) : option IPC_sHandler_t :=
  let i := IPC_getHandlerIdx st id in
  if i =? -1 then None else array_get (IPC_arHandler st) i.

Definition inbox (st : state) (id : IPC_eTaskID_t) : option IPC_sMsgQueue_t :=
  queue <$> handler_of st id.

(** What the declarations of the C types guarantee: array lengths and the
    ranges of the [uint8_t] fields, and that head and tail index slots. *)
Definition wf_msg (m : IPC_sMsg_t) : Prop :=
  Z.of_nat (length (u8Data m)) = IPC_MAX_DATA_LENGTH.

Record wf_queue (q : IPC_sMsgQueue_t) : Prop := mk_wf_queue {
  wf_slots : Z.of_nat (length (msgQueue q)) = IPC_MSG_QUEUE_LENGTH;
  wf_msgs : Forall wf_msg (msgQueue q);
  wf_tail : 0 <= queueTail q < IPC_MSG_QUEUE_LENGTH;
  wf_head : 0 <= queueHead q < IPC_MSG_QUEUE_LENGTH;
  wf_size : 0 <= queueSize q < 256
}.

Record wf_state (st : state) : Prop := mk_wf_state {
  wf_handlers : Z.of_nat (length (IPC_arHandler st)) = IPC_HANDLER_CNT_MAX;
  wf_queues : Forall (λ h, wf_queue (queue h)) (IPC_arHandler st);
  wf_cnt : 0 <= IPC_u8HandlerCnt st <= IPC_HANDLER_CNT_MAX
}.

(** The ring discipline: the tail is [queueSize] slots after the head and
    no more messages are counted than there are slots. *)
Definition ring_ok (q : IPC_sMsgQueue_t) : Prop :=
  queueSize q <= IPC_MSG_QUEUE_LENGTH ∧
  queueTail q = (queueHead q + queueSize q) mod IPC_MSG_QUEUE_LENGTH.

(** The [n] slots read from index [i] on, in the order in which
    [IPC_receive] visits them. *)
Fixpoint ring_read (msgs : list IPC_sMsg_t) (i : Z) (n : nat) : list IPC_sMsg_t :=
  match n with
  | O => []
  | S n' =>
      match array_get msgs i with
      | Some m =>
          m :: ring_read msgs
                 (if i =? IPC_MSG_QUEUE_LENGTH - 1 then 0 else to_uint8 (i + 1)) n'
      | None => []
      end
  end.

(** The unread messages of a queue, oldest first. *)
Definition contents (q : IPC_sMsgQueue_t) : list IPC_sMsg_t :=
  ring_read (msgQueue q) (queueHead q) (Z.to_nat (queueSize q)).

(** A stored or received message [m] is the message that was sent with
    type [aType] and the [aDataSize] bytes at [apData]. *)
Definition carries (m : IPC_sMsg_t) (aType : IPC_eMsgType_t)
    (apData : list byte) (aDataSize : Z) : Prop :=
  eIPC_MsgType m = aType ∧
  u32DataLen m = aDataSize ∧
  take (Z.to_nat aDataSize) (u8Data m) = take (Z.to_nat aDataSize) apData.

Definition is_success (e : IPC_eError_t) : bool :=
  match e with
  | E_IPC_SUCCESS | E_IPC_RECV_MORE => true
  | _ => false
  end.

(** [n] calls of [IPC_receive] in a row by the owner, into the same buffer:
    the result and the buffer content after each call. *)
Fixpoint receive_n (n : nat) (st : state) (id : IPC_eTaskID_t)
    (apBuf : IPC_sMsg_t) : option (list (IPC_eError_t * IPC_sMsg_t) * state) :=
  match n with
  | O => Some ([], st)
  | S n' =>
      '(e, st1, buf1) ← IPC_receive st id apBuf;
      '(rs, st2) ← receive_n n' st1 id buf1;
      Some ((e, buf1) :: rs, st2)
  end.

(** ** Sequences of calls on one inbox *)

Inductive ipc_call : Type :=
  | Send (xTaskNotifyGive : TaskHandle_t → BaseType_t) (aType : IPC_eMsgType_t)
         (apData : list byte) (aDataSize : Z)
  | Receive (apBuf : IPC_sMsg_t).

Definition call (st : state) (id : IPC_eTaskID_t) (c : ipc_call)
    : option (IPC_eError_t * state) :=
  match c with
  | Send notify aType apData aDataSize =>
      IPC_send notify st id aType apData aDataSize
  | Receive apBuf =>
      '(e, st', _) ← IPC_receive st id apBuf; Some (e, st')
  end.

(** Runs the calls in order; the trace pairs each call with its result. *)
Fixpoint run (st : state) (id : IPC_eTaskID_t) (calls : list ipc_call)
    : option (list (ipc_call * IPC_eError_t) * state) :=
  match calls with
  | [] => Some ([], st)
  | c :: cs =>
      '(e, st1) ← call st id c;
      '(tr, st2) ← run st1 id cs;
      Some ((c, e) :: tr, st2)
  end.

Definition successful_send (ce : ipc_call * IPC_eError_t) : bool :=
  match ce with
  | (Send _ _ _ _, E_IPC_SUCCESS) => true
  | _ => false
  end.

Definition successful_receive (ce : ipc_call * IPC_eError_t) : bool :=
  match ce with
  | (Receive _, e) => is_success e
  | _ => false
  end.

(** A send that gets past the size check stores its message, whatever
    [xTaskNotifyGive] answers afterwards. *)
Definition stores (c : ipc_call) : bool :=
  match c with
  | Send _ _ _ aDataSize => aDataSize <? IPC_MAX_DATA_LENGTH
  | Receive _ => false
  end.

Definition stored_send (ce : ipc_call * IPC_eError_t) : bool := stores ce.1.

Definition tally (f : ipc_call * IPC_eError_t → bool)
    (tr : list (ipc_call * IPC_eError_t)) : Z :=
  Z.of_nat (length (filter (λ ce, f ce = true) tr)).

(** The caller of a send owns at least [aDataSize] bytes at [apData]. *)
Definition payload_ok (c : ipc_call) : bool :=
  match c with
  | Send _ _ apData aDataSize =>
      (IPC_MAX_DATA_LENGTH <=? aDataSize)
      || (aDataSize <=? Z.of_nat (length apData))
  | Receive _ => true
  end.

(** The number of messages that an inbox holding [n] messages is meant to
    hold after a call. *)
Definition count_step (n : Z) (c : ipc_call) : Z :=
  match c with
  | Send _ _ _ _ => if stores c then n + 1 else n
  | Receive _ => if n =? 0 then 0 else n - 1
  end.

(** No send of the sequence is issued while the inbox holds
    [IPC_MSG_QUEUE_LENGTH] messages, [n] being the number it holds at the
    start. *)
Fixpoint never_overfills (n : Z) (calls : list ipc_call) : bool :=
  match calls with
  | [] => true
  | c :: cs =>
      (if stores c then n <? IPC_MSG_QUEUE_LENGTH else true)
      && never_overfills (count_step n c) cs
  end.

(** ** Scenarios *)

Definition byte_of (k : nat) : byte := default x00 (Byte.of_nat k).

(** [n] sends in a row, the [k]-th with the one-byte payload [k]. *)
Definition sends (n : nat) : list ipc_call :=
  (λ k, Send notify_pass E_IPC_MSG_TYPE_1 [byte_of k] 1) <$> seq 1 n.

(** Head, tail and size of an inbox. *)
Definition summary (st : state) (id : IPC_eTaskID_t) : option (Z * Z * Z) :=
  (λ q, (queueHead q, queueTail q, queueSize q)) <$> inbox st id.

(** Two registrations of one task in a row: both answers, and the number
    of handlers after each. *)
Definition register_twice (st : state) (id : IPC_eTaskID_t)
    (aHandle aHandle' : TaskHandle_t) : option (IPC_eError_t * Z * IPC_eError_t * Z) :=
  '(e1, st1) ← IPC_createHandler st id aHandle;
  '(e2, st2) ← IPC_createHandler st1 id aHandle';
  Some (e1, IPC_u8HandlerCnt st1, e2, IPC_u8HandlerCnt st2).

(** A message as the sender passes it: type, bytes and size. *)
Definition sent : Type := IPC_eMsgType_t * list byte * Z.

Definition carries_sent (m : IPC_sMsg_t) (a : sent) : Prop :=
  carries m a.1.1 a.1.2 a.2.

(** Two sends and then two receives on one inbox: the four answers and the
    two messages received. *)
Definition two_sends_two_receives (st : state) (id : IPC_eTaskID_t) (a b : sent)
    : option (IPC_eError_t * IPC_eError_t
              * (IPC_eError_t * IPC_sMsg_t) * (IPC_eError_t * IPC_sMsg_t)) :=
  '(ea, s1) ← IPC_send notify_pass st id a.1.1 a.1.2 a.2;
  '(eb, s2) ← IPC_send notify_pass s1 id b.1.1 b.1.2 b.2;
  '(e1, s3, m1) ← IPC_receive s2 id zero_msg;
  '(e2, s4, m2) ← IPC_receive s3 id m1;
  Some (ea, eb, (e1, m1), (e2, m2)).

(** The answer and the first byte of the message of one receive. *)
Definition receive_byte (st : state) (id : IPC_eTaskID_t)
    : option (IPC_eError_t * list byte) :=
  (λ r, (r.1.1, take 1 (u8Data r.2))) <$> IPC_receive st id zero_msg.

(** The state that a sequence of calls leaves. *)
Definition after (st : state) (id : IPC_eTaskID_t) (calls : list ipc_call) : state :=
  match run st id calls with
  | Some (_, st') => st'
  | None => st
  end.

(** ** The interface as a whole *)

(** A call of one of the four functions of [IPCHandler.h]. *)
Inductive api_call : Type :=
  | ApiInit
  | ApiCreate (aTaskID : IPC_eTaskID_t) (aHandle : TaskHandle_t)
  | ApiSend (xTaskNotifyGive : TaskHandle_t → BaseType_t) (aRecv : IPC_eTaskID_t)
            (aType : IPC_eMsgType_t) (apData : list byte) (aDataSize : Z)
  | ApiReceive (aRecv : IPC_eTaskID_t) (apBuf : IPC_sMsg_t).

(** The static variables after a call, [None] when the call reads or
    writes outside an array. *)
Definition api_step (st : state) (c : api_call) : option state :=
  match c with
  | ApiInit => Some (IPC_initIPCHandler st)
  | ApiCreate aTaskID aHandle => snd <$> IPC_createHandler st aTaskID aHandle
  | ApiSend notify aRecv aType apData aDataSize =>
      snd <$> IPC_send notify st aRecv aType apData aDataSize
  | ApiReceive aRecv apBuf => (λ r, r.1.2) <$> IPC_receive st aRecv apBuf
  end.

Fixpoint api_run (st : state) (cs : list api_call) : option state :=
  match cs with
  | [] => Some st
  | c :: cs' => st' ← api_step st c; api_run st' cs'
  end.

(** The state in which the tasks start: the static storage after
    [IPC_initIPCHandler], and the state that a sequence of calls leaves
    from there. *)
Definition start_state : state := IPC_initIPCHandler zero_state.

Definition api_after (cs : list api_call) : state :=
  default start_state (api_run start_state cs).

(** A short session: two registrations and a refused third, a send to
    each task, and two receives by task 1. *)
Definition session : list api_call :=
  [ApiCreate E_IPC_TASK_ID_1 4097; ApiCreate E_IPC_TASK_ID_2 4098;
   ApiCreate E_IPC_TASK_ID_1 4099;
   ApiSend notify_pass E_IPC_TASK_ID_1 E_IPC_MSG_TYPE_1 [x68; x69; x00] 3;
   ApiSend notify_fail E_IPC_TASK_ID_2 E_IPC_MSG_TYPE_2 [x79; x6f] 2;
   ApiReceive E_IPC_TASK_ID_1 zero_msg; ApiReceive E_IPC_TASK_ID_1 zero_msg].

(** The entries of the table that hold a handler. *)
Definition registered (st : state) : list IPC_sHandler_t :=
  take (Z.to_nat (IPC_u8HandlerCnt st)) (IPC_arHandler st).

(** The tail is [queueSize] slots after the head, counted modulo the
    number of slots. *)
Definition ring_congruent (q : IPC_sMsgQueue_t) : Prop :=
  queueTail q = (queueHead q + queueSize q) mod IPC_MSG_QUEUE_LENGTH.

(** The registered handlers have pairwise distinct task IDs, a handle that
    is not null, and a queue whose tail is congruent to head plus size. *)
Definition registry_ok (st : state) : Prop :=
  NoDup (recvId <$> registered st)
  ∧ Forall (λ h, handle h ≠ NULL ∧ ring_congruent (queue h)) (registered st).

(** [IPC_createHandler] for each pair of a task ID and a handle, in order:
    the answers and the final state. *)
Fixpoint create_list (st : state) (tasks : list (IPC_eTaskID_t * TaskHandle_t))
    : option (list IPC_eError_t * state) :=
  match tasks with
  | [] => Some ([], st)
  | (id, hd) :: tasks' =>
      '(e, st1) ← IPC_createHandler st id hd;
      '(es, st2) ← create_list st1 tasks';
      Some (e :: es, st2)
  end.

(** The sends of a list of messages, each notified through
    [xTaskNotifyGive]. *)
Definition send_calls (xTaskNotifyGive : TaskHandle_t → BaseType_t)
    (msgs : list sent) : list ipc_call :=
  (λ a, Send xTaskNotifyGive a.1.1 a.1.2 a.2) <$> msgs.

(** The answers of [IPC_receive] while [n] queued messages are received:
    [E_IPC_RECV_MORE] for all but the last, [E_IPC_SUCCESS] for the last. *)
Definition drain_codes (n : nat) : list IPC_eError_t :=
  match n with
  | O => []
  | S k => replicate k E_IPC_RECV_MORE ++ [E_IPC_SUCCESS]
  end.

(** The calls on one inbox with what each hands back: the answer and, for
    a receive, the caller's buffer after the call. *)
Fixpoint run_io (st : state) (id : IPC_eTaskID_t) (calls : list ipc_call)
    : option (list (IPC_eError_t * option IPC_sMsg_t) * state) :=
  match calls with
  | [] => Some ([], st)
  | Send notify aType apData aDataSize :: cs =>
      '(e, st1) ← IPC_send notify st id aType apData aDataSize;
      '(out, st2) ← run_io st1 id cs;
      Some ((e, None) :: out, st2)
  | Receive apBuf :: cs =>
      '(e, st1, buf1) ← IPC_receive st id apBuf;
      '(out, st2) ← run_io st1 id cs;
      Some ((e, Some buf1) :: out, st2)
  end.

(** A first-in first-out list of messages as the reference for an inbox:
    [fifo_trace l calls out l'] says that a list [l] of queued messages,
    oldest first, answers the calls with [out] and ends as [l'].  A send
    that passes the size check appends a message that carries what was
    sent, and a send that does not changes nothing; a receive takes the
    oldest message and hands it over, with [E_IPC_RECV_MORE] when others
    remain, and fails on the empty list, leaving the buffer. *)
Inductive fifo_trace :
    list IPC_sMsg_t → list ipc_call →
    list (IPC_eError_t * option IPC_sMsg_t) → list IPC_sMsg_t → Prop :=
  | fifo_done l : fifo_trace l [] [] l
  | fifo_send l notify aType apData aDataSize m e cs out l' :
      aDataSize < IPC_MAX_DATA_LENGTH →
      carries m aType apData aDataSize →
      fifo_trace (l ++ [m]) cs out l' →
      fifo_trace l (Send notify aType apData aDataSize :: cs) ((e, None) :: out) l'
  | fifo_too_large l notify aType apData aDataSize cs out l' :
      IPC_MAX_DATA_LENGTH <= aDataSize →
      fifo_trace l cs out l' →
      fifo_trace l (Send notify aType apData aDataSize :: cs)
        ((E_IPC_ERR_SEND_FAIL, None) :: out) l'
  | fifo_receive m l apBuf cs out l' :
      fifo_trace l cs out l' →
      fifo_trace (m :: l) (Receive apBuf :: cs)
        ((if decide (l = []) then E_IPC_SUCCESS else E_IPC_RECV_MORE, Some m) :: out)
        l'
  | fifo_empty apBuf cs out l' :
      fifo_trace [] cs out l' →
      fifo_trace [] (Receive apBuf :: cs)
        ((E_IPC_ERR_RECV_FAIL, Some apBuf) :: out) l'.

(** The size of a send is at least the maximum, or it is not negative and
    the caller owns that many bytes. *)
Definition size_ok (c : ipc_call) : bool :=
  match c with
  | Send _ _ apData aDataSize =>
      (IPC_MAX_DATA_LENGTH <=? aDataSize)
      || ((0 <=? aDataSize) && (aDataSize <=? Z.of_nat (length apData)))
  | Receive _ => true
  end.

(** ** main.c: the two demonstration tasks *)

(** The inner loop of [demo_task1]: [n] rounds of [IPC_receive] into the
    static [msgBuff]; a round whose answer is [E_IPC_SUCCESS] or
    [E_IPC_RECV_MORE] passes [msgBuff.u8Data] to [PRINTF].  The result
    lists the buffers passed to [PRINTF], in order. *)
Fixpoint demo_task1_loop (n : nat) (st : state) (msgBuff : IPC_sMsg_t)
    : option (list (list byte) * state * IPC_sMsg_t) :=
  match n with
  | O => Some ([], st, msgBuff)
  | S n' =>
      '(error, st1, buf1) ← IPC_receive st E_IPC_TASK_ID_1 msgBuff;
      '(out, st2, buf2) ← demo_task1_loop n' st1 buf1;
      Some ((match error with
             | E_IPC_SUCCESS | E_IPC_RECV_MORE => [u8Data buf1]
             | _ => []
             end) ++ out, st2, buf2)
  end.

(** One round of the task loop of [demo_task1], [eventsToProcess] being
    what [ulTaskNotifyTake] returned. *)
Definition demo_task1_round (eventsToProcess : Z) (st : state)
    (msgBuff : IPC_sMsg_t) : option (list (list byte) * state * IPC_sMsg_t) :=
  if negb (eventsToProcess =? 0) then
    demo_task1_loop (Z.to_nat eventsToProcess) st msgBuff
  else Some ([], st, msgBuff).

(** The string literal of [demo_task2] with its terminating zero, and
    [strlen] of it plus one. *)
Definition hello_world : list byte :=
  [x48; x65; x6c; x6c; x6f; x20; x77; x6f; x72; x6c; x64; x21; x00].
Definition hello_world_size : Z := 12 + 1.

(** One round of the task loop of [demo_task2] after the delay: the send,
    whose answer the task drops. *)
Definition demo_task2_round (xTaskNotifyGive : TaskHandle_t → BaseType_t)
    (st : state) : option state :=
  snd <$> IPC_send xTaskNotifyGive st E_IPC_TASK_ID_1 E_IPC_MSG_TYPE_1
            hello_world hello_world_size.

Fixpoint demo_task2_rounds (n : nat)
    (xTaskNotifyGive : TaskHandle_t → BaseType_t) (st : state) : option state :=
  match n with
  | O => Some st
  | S n' => st1 ← demo_task2_round xTaskNotifyGive st;
            demo_task2_rounds n' xTaskNotifyGive st1
  end.

(** * Properties *)

(** ** Arrays *)

Section arrays.
Context {A : Type}.
Implicit Types (a : list A) (i : Z) (v : A).

Lemma array_get_Some a i v :
  array_get a i = Some v ↔ 0 <= i ∧ a !! Z.to_nat i = Some v.
Proof.
  unfold array_get. destruct (Z.leb_spec 0 i); split; intros; try done.
  - by destruct H0.
  - lia.
Qed.

Lemma array_get_in_range a i :
  0 <= i < Z.of_nat (length a) → ∃ v, array_get a i = Some v.
Proof.
  intros Hi. destruct (lookup_lt_is_Some_2 a (Z.to_nat i)) as [v Hv]; [lia|].
  exists v. apply array_get_Some. split; [lia | done].
Qed.

Lemma array_get_range a i v :
  array_get a i = Some v → 0 <= i < Z.of_nat (length a).
Proof.
  intros [Hi Hv]%array_get_Some. apply lookup_lt_Some in Hv. lia.
Qed.

Lemma array_set_in_range a i v :
  0 <= i < Z.of_nat (length a) →
  array_set a i v = Some (<[Z.to_nat i := v]> a).
Proof.
  intros Hi. unfold array_set.
  destruct (Z.leb_spec 0 i), (Z.ltb_spec i (Z.of_nat (length a))); simpl; done || lia.
Qed.

Lemma array_set_Some a i v a' :
  array_set a i v = Some a' →
  0 <= i < Z.of_nat (length a) ∧ a' = <[Z.to_nat i := v]> a.
Proof.
  unfold array_set.
  destruct (Z.leb_spec 0 i), (Z.ltb_spec i (Z.of_nat (length a))); simpl;
    intros; simplify_eq; split; done || lia.
Qed.

Lemma array_get_set_eq a i v :
  0 <= i < Z.of_nat (length a) →
  array_get (<[Z.to_nat i := v]> a) i = Some v.
Proof.
  intros Hi. apply array_get_Some. split; [lia|].
  apply list_lookup_insert_eq. lia.
Qed.

Lemma array_get_set_ne a i j v :
  0 <= i → 0 <= j → i ≠ j →
  array_get (<[Z.to_nat i := v]> a) j = array_get a j.
Proof.
  intros Hi Hj Hne. unfold array_get.
  destruct (Z.leb_spec 0 j); [|done].
  apply list_lookup_insert_ne. lia.
Qed.
End arrays.

(** ** The copy loop *)

Lemma copy_data_from (n i : nat) (apData buf : list byte) :
  (i + n <= length apData)%nat → (i + n <= length buf)%nat →
  copy_data n (Z.of_nat i) apData buf
  = Some (take i buf ++ take n (drop i apData) ++ drop (i + n) buf).
Proof.
  revert i buf. induction n as [|n IH]; intros i buf Hd Hb; simpl.
  - rewrite Nat.add_0_r, take_drop. done.
  - destruct (lookup_lt_is_Some_2 apData i) as [b Hb']; [lia|].
    assert (array_get apData (Z.of_nat i) = Some b) as ->.
    { apply array_get_Some. rewrite Nat2Z.id. split; [lia | done]. }
    simpl. rewrite array_set_in_range by lia. simpl.
    replace (Z.of_nat i + 1) with (Z.of_nat (S i)) by lia.
    rewrite IH by (rewrite ?length_insert; lia).
    rewrite Nat2Z.id. f_equal.
    rewrite (drop_S apData b i) by done. simpl.
    rewrite drop_insert_lt by lia.
    rewrite (take_S_r _ i b) by (apply list_lookup_insert_eq; lia).
    rewrite take_insert_ge by lia.
    rewrite <- app_assoc. simpl.
    by replace (i + S n)%nat with (S (i + n)) by lia.
Qed.

Lemma copy_data_0 (apData buf : list byte) (aDataSize : Z) :
  aDataSize <= Z.of_nat (length apData) →
  aDataSize <= Z.of_nat (length buf) →
  copy_data (Z.to_nat aDataSize) 0 apData buf
  = Some (take (Z.to_nat aDataSize) apData ++ drop (Z.to_nat aDataSize) buf).
Proof.
  intros Hd Hb.
  rewrite (copy_data_from (Z.to_nat aDataSize) 0) by lia.
  by rewrite take_0, drop_0.
Qed.

(** ** Looking up a handler *)

Lemma IPC_getHandlerIdx_loop_ids hs1 hs2 i id :
  recvId <$> hs1 = recvId <$> hs2 →
  IPC_getHandlerIdx_loop hs1 i id = IPC_getHandlerIdx_loop hs2 i id.
Proof.
  revert hs2 i. induction hs1 as [|h hs1 IH]; intros [|h2 hs2] i Heq;
    simplify_eq/=; [done|].
  rewrite H. destruct (recvId h2 =? id); [done | by apply IH].
Qed.

Lemma IPC_getHandlerIdx_loop_spec hs i id :
  0 <= i →
  (IPC_getHandlerIdx_loop hs i id = -1 ∧ Forall (λ h, recvId h ≠ id) hs)
  ∨ (∃ k h, IPC_getHandlerIdx_loop hs i id = i + Z.of_nat k
            ∧ hs !! k = Some h ∧ recvId h = id
            ∧ Forall (λ h, recvId h ≠ id) (take k hs)).
Proof.
  revert i. induction hs as [|h hs IH]; intros i Hi; simpl.
  - left. split; [done | constructor].
  - destruct (Z.eqb_spec (recvId h) id) as [Heq|Hne].
    + right. exists 0%nat, h. repeat split; [lia | done | constructor].
    + destruct (IH (i + 1)) as [[-> Hall] | (k & h' & -> & Hk & Hid & Hall)]; [lia|..].
      * left. split; [done | by constructor].
      * right. exists (S k), h'. repeat split; [lia | done | done | by constructor].
Qed.

Lemma IPC_getHandlerIdx_loop_app hs h i id :
  0 <= i →
  IPC_getHandlerIdx_loop hs i id = -1 → recvId h = id →
  IPC_getHandlerIdx_loop (hs ++ [h]) i id = i + Z.of_nat (length hs).
Proof.
  revert i. induction hs as [|h0 hs IH]; intros i Hi Hnone Hid; simpl in *.
  - rewrite Hid, Z.eqb_refl. lia.
  - destruct (recvId h0 =? id); [lia|].
    rewrite IH by (done || lia). lia.
Qed.

(** The index that [IPC_getHandlerIdx] returns is [-1] or the index of a
    registered handler with that task ID. *)
Lemma IPC_getHandlerIdx_spec st id :
  0 <= IPC_u8HandlerCnt st <= Z.of_nat (length (IPC_arHandler st)) →
  IPC_getHandlerIdx st id = -1
  ∨ (∃ h, 0 <= IPC_getHandlerIdx st id < IPC_u8HandlerCnt st
          ∧ array_get (IPC_arHandler st) (IPC_getHandlerIdx st id) = Some h
          ∧ recvId h = id).
Proof.
  intros Hcnt. unfold IPC_getHandlerIdx.
  destruct (Z.ltb_spec 0 (IPC_u8HandlerCnt st)); [|by left].
  destruct (IPC_getHandlerIdx_loop_spec
              (take (Z.to_nat (IPC_u8HandlerCnt st)) (IPC_arHandler st)) 0 id)
    as [[-> _] | (k & h & -> & Hk & Hid & _)]; [lia | by left |].
  right. exists h.
  pose proof (lookup_lt_Some _ _ _ Hk) as Hlt. rewrite length_take in Hlt.
  rewrite lookup_take_lt in Hk by lia.
  split; [lia|]. split; [|done].
  apply array_get_Some. split; [lia|].
  by replace (Z.to_nat (0 + Z.of_nat k)) with k by lia.
Qed.

(** ** The queue of one inbox *)

Lemma to_uint8_small x : 0 <= x < 256 → to_uint8 x = x.
Proof. intros. unfold to_uint8. by rewrite Z.mod_small. Qed.

Lemma ring_next_mod i :
  0 <= i < IPC_MSG_QUEUE_LENGTH →
  (if i =? IPC_MSG_QUEUE_LENGTH - 1 then 0 else to_uint8 (i + 1))
  = (i + 1) mod IPC_MSG_QUEUE_LENGTH.
Proof.
  unfold IPC_MSG_QUEUE_LENGTH, to_uint8. intros Hi.
  destruct (Z.eqb_spec i (16 - 1)) as [->|Hne]; [done|].
  rewrite !Z.mod_small; lia.
Qed.

Lemma stored_msg_carries slot aType apData aDataSize :
  0 <= aDataSize < IPC_MAX_DATA_LENGTH →
  aDataSize <= Z.of_nat (length apData) →
  carries (stored_msg slot aType apData aDataSize) aType apData aDataSize.
Proof.
  unfold IPC_MAX_DATA_LENGTH. intros Hn Hd. repeat split; simpl.
  - unfold to_uint32. rewrite Z.mod_small; lia.
  - rewrite take_app_le by (rewrite length_take; lia).
    rewrite take_take. f_equal. lia.
Qed.

Lemma stored_msg_wf slot aType apData aDataSize :
  wf_msg slot → aDataSize < IPC_MAX_DATA_LENGTH →
  aDataSize <= Z.of_nat (length apData) →
  wf_msg (stored_msg slot aType apData aDataSize).
Proof.
  unfold wf_msg, IPC_MAX_DATA_LENGTH. simpl. intros Hs Hn Hd.
  rewrite length_app, length_take, length_drop. lia.
Qed.

(** What [enqueue] does to a queue: it never refuses. *)
Lemma enqueue_spec q aType apData aDataSize :
  wf_queue q → aDataSize < IPC_MAX_DATA_LENGTH →
  aDataSize <= Z.of_nat (length apData) →
  ∃ slot,
    array_get (msgQueue q) (queueTail q) = Some slot ∧
    enqueue q aType apData aDataSize
    = Some {| msgQueue := <[Z.to_nat (queueTail q) :=
                             stored_msg slot aType apData aDataSize]> (msgQueue q);
              queueTail := (queueTail q + 1) mod IPC_MSG_QUEUE_LENGTH;
              queueHead := queueHead q;
              queueSize := to_uint8 (queueSize q + 1) |}.
Proof.
  intros [Hlen Hmsgs Ht Hh Hs] Hn Hd.
  destruct (array_get_in_range (msgQueue q) (queueTail q)) as [slot Hslot]; [lia|].
  exists slot. split; [done|]. unfold enqueue. rewrite Hslot. simpl.
  assert (wf_msg slot) as Hwf.
  { apply array_get_Some in Hslot as [_ Hslot].
    by eapply (Forall_lookup_1 _ _ _ _ Hmsgs). }
  rewrite copy_data_0 by (unfold wf_msg in Hwf; lia). simpl.
  rewrite array_set_in_range by lia. simpl.
  by rewrite ring_next_mod.
Qed.

Lemma enqueue_wf q aType apData aDataSize q' :
  wf_queue q → aDataSize < IPC_MAX_DATA_LENGTH →
  aDataSize <= Z.of_nat (length apData) →
  enqueue q aType apData aDataSize = Some q' → wf_queue q'.
Proof.
  intros Hq Hn Hd Henq.
  destruct (enqueue_spec q aType apData aDataSize) as (slot & Hslot & Heq);
    [done..|]. rewrite Heq in Henq. simplify_eq.
  destruct Hq as [Hlen Hmsgs Ht Hh Hs].
  split; simpl; unfold IPC_MSG_QUEUE_LENGTH, to_uint8 in *.
  - by rewrite length_insert.
  - apply Forall_insert; [done|]. apply stored_msg_wf; [|done..].
    apply array_get_Some in Hslot as [_ Hslot].
    by eapply (Forall_lookup_1 _ _ _ _ Hmsgs).
  - apply Z.mod_pos_bound. lia.
  - done.
  - apply Z.mod_pos_bound. lia.
Qed.

Lemma dequeue_spec q :
  wf_queue q →
  ∃ m, array_get (msgQueue q) (queueHead q) = Some m ∧
       dequeue q
       = Some (m, {| msgQueue := msgQueue q;
                     queueTail := queueTail q;
                     queueHead := (queueHead q + 1) mod IPC_MSG_QUEUE_LENGTH;
                     queueSize := to_uint8 (queueSize q - 1) |}).
Proof.
  intros [Hlen Hmsgs Ht Hh Hs].
  destruct (array_get_in_range (msgQueue q) (queueHead q)) as [m Hm]; [lia|].
  exists m. split; [done|]. unfold dequeue. rewrite Hm. simpl.
  by rewrite ring_next_mod.
Qed.

Lemma dequeue_wf q m q' : wf_queue q → dequeue q = Some (m, q') → wf_queue q'.
Proof.
  intros Hq Hdeq. destruct (dequeue_spec q Hq) as (m' & _ & Heq).
  rewrite Heq in Hdeq. simplify_eq.
  destruct Hq as [Hlen Hmsgs Ht Hh Hs].
  split; simpl; unfold IPC_MSG_QUEUE_LENGTH, to_uint8 in *; try done;
    apply Z.mod_pos_bound; lia.
Qed.

(** *** Contents of the ring *)

Lemma ring_read_length msgs i n :
  Z.of_nat (length msgs) = IPC_MSG_QUEUE_LENGTH →
  0 <= i < IPC_MSG_QUEUE_LENGTH →
  length (ring_read msgs i n) = n.
Proof.
  intros Hlen. revert i. induction n as [|n IH]; intros i Hi; simpl; [done|].
  destruct (array_get_in_range msgs i) as [m ->]; [lia|]. simpl.
  rewrite IH; [done|]. rewrite ring_next_mod by done.
  apply Z.mod_pos_bound. unfold IPC_MSG_QUEUE_LENGTH. lia.
Qed.

Lemma contents_length q :
  wf_queue q → Z.of_nat (length (contents q)) = queueSize q.
Proof.
  intros [Hlen Hmsgs Ht Hh Hs]. unfold contents.
  rewrite ring_read_length by done. lia.
Qed.

(** Writing the slot that lies [n] slots after [i] appends to what is read
    from [i], as long as the ring has a free slot. *)
Lemma ring_read_insert msgs i n t m :
  Z.of_nat (length msgs) = IPC_MSG_QUEUE_LENGTH →
  0 <= i < IPC_MSG_QUEUE_LENGTH →
  Z.of_nat n < IPC_MSG_QUEUE_LENGTH →
  t = (i + Z.of_nat n) mod IPC_MSG_QUEUE_LENGTH →
  ring_read (<[Z.to_nat t := m]> msgs) i (S n) = ring_read msgs i n ++ [m].
Proof.
  intros Hlen. revert i. induction n as [|n IH]; intros i Hi Hn Ht.
  - rewrite Z.add_0_r, Z.mod_small in Ht by done. subst t. simpl.
    by rewrite array_get_set_eq by lia.
  - assert (0 <= t < IPC_MSG_QUEUE_LENGTH) as Htr.
    { subst t. apply Z.mod_pos_bound. unfold IPC_MSG_QUEUE_LENGTH. lia. }
    assert (t ≠ i) as Hne.
    { subst t. unfold IPC_MSG_QUEUE_LENGTH in *. intros Heq.
      destruct (Z_lt_le_dec (i + Z.of_nat (S n)) 16).
      - rewrite Z.mod_small in Heq; lia.
      - replace (i + Z.of_nat (S n)) with (i + Z.of_nat (S n) - 16 + 1 * 16) in Heq by lia.
        rewrite Z.mod_add, Z.mod_small in Heq; lia. }
    change (ring_read ?l i (S ?k))
      with (match array_get l i with
            | Some m0 => m0 :: ring_read l
                (if i =? IPC_MSG_QUEUE_LENGTH - 1 then 0 else to_uint8 (i + 1)) k
            | None => []
            end).
    rewrite array_get_set_ne by lia.
    destruct (array_get_in_range msgs i) as [m0 ->]; [lia|].
    rewrite ring_next_mod by done.
    rewrite IH; [done | | lia |].
    + apply Z.mod_pos_bound. unfold IPC_MSG_QUEUE_LENGTH. lia.
    + subst t. rewrite Zplus_mod_idemp_l. f_equal. lia.
Qed.

Lemma enqueue_contents q aType apData aDataSize q' :
  wf_queue q → ring_ok q → queueSize q < IPC_MSG_QUEUE_LENGTH →
  aDataSize < IPC_MAX_DATA_LENGTH →
  aDataSize <= Z.of_nat (length apData) →
  enqueue q aType apData aDataSize = Some q' →
  ring_ok q' ∧
  ∃ slot, array_get (msgQueue q) (queueTail q) = Some slot ∧
          contents q' = contents q ++ [stored_msg slot aType apData aDataSize].
Proof.
  intros Hq [Hle Hring] Hroom Hn Hd Henq.
  destruct (enqueue_spec q aType apData aDataSize) as (slot & Hslot & Heq);
    [done..|]. rewrite Heq in Henq. simplify_eq.
  destruct Hq as [Hlen Hmsgs Ht Hh Hs].
  assert (to_uint8 (queueSize q + 1) = queueSize q + 1) as Hsz.
  { apply to_uint8_small. unfold IPC_MSG_QUEUE_LENGTH in *. lia. }
  split.
  - unfold ring_ok. simpl. rewrite Hsz, Hring. split; [lia|].
    rewrite Zplus_mod_idemp_l. f_equal. lia.
  - exists slot. split; [done|]. unfold contents. simpl. rewrite Hsz.
    replace (Z.to_nat (queueSize q + 1)) with (S (Z.to_nat (queueSize q))) by lia.
    apply ring_read_insert; [done | done | lia |].
    rewrite Hring. f_equal. lia.
Qed.

Lemma dequeue_contents q m q' :
  wf_queue q → 0 < queueSize q → dequeue q = Some (m, q') →
  contents q = m :: contents q'.
Proof.
  intros Hq Hpos Hdeq. destruct (dequeue_spec q Hq) as (m' & Hm & Heq).
  rewrite Heq in Hdeq. simplify_eq.
  destruct Hq as [Hlen Hmsgs Ht Hh Hs]. unfold contents. simpl.
  rewrite to_uint8_small by lia.
  replace (Z.to_nat (queueSize q)) with (S (Z.to_nat (queueSize q - 1))) by lia.
  simpl. rewrite Hm. by rewrite ring_next_mod.
Qed.

Lemma dequeue_ring_ok q m q' :
  wf_queue q → 0 < queueSize q → ring_ok q → dequeue q = Some (m, q') →
  ring_ok q'.
Proof.
  intros Hq Hpos [Hle Hring] Hdeq. destruct (dequeue_spec q Hq) as (m' & Hm & Heq).
  rewrite Heq in Hdeq. simplify_eq.
  destruct Hq as [Hlen Hmsgs Ht Hh Hs]. unfold ring_ok. simpl.
  rewrite to_uint8_small by lia. split; [lia|].
  rewrite Hring, Zplus_mod_idemp_l. f_equal. lia.
Qed.

(** ** Handlers in the state *)

Lemma handler_of_Some st id h :
  wf_state st → handler_of st id = Some h →
  0 <= IPC_getHandlerIdx st id < IPC_HANDLER_CNT_MAX
  ∧ array_get (IPC_arHandler st) (IPC_getHandlerIdx st id) = Some h
  ∧ recvId h = id ∧ wf_queue (queue h).
Proof.
  intros [Hlen Hqs Hcnt] Hh. unfold handler_of in Hh.
  destruct (Z.eqb_spec (IPC_getHandlerIdx st id) (-1)) as [|Hne]; [done|].
  destruct (IPC_getHandlerIdx_spec st id) as [|(h' & Hi & Hh' & Hid)]; [lia | done |].
  assert (h' = h) as -> by congruence.
  split; [lia|]. split; [done|]. split; [done|].
  apply array_get_Some in Hh as [_ Hh].
  by eapply (Forall_lookup_1 _ _ _ _ Hqs).
Qed.

Lemma handler_of_None st id :
  handler_of st id = None →
  0 <= IPC_u8HandlerCnt st <= Z.of_nat (length (IPC_arHandler st)) →
  IPC_getHandlerIdx st id = -1.
Proof.
  intros Hnone Hcnt. unfold handler_of in Hnone.
  destruct (Z.eqb_spec (IPC_getHandlerIdx st id) (-1)) as [|Hne]; [done|].
  destruct (IPC_getHandlerIdx_spec st id) as [|(h' & Hi & Hh' & Hid)]; [lia | done |].
  congruence.
Qed.

(** Replacing the queue of a registered handler keeps every lookup. *)
Lemma set_queue_spec st id h q' :
  wf_state st → handler_of st id = Some h → wf_queue q' →
  ∃ st',
    set_queue st (IPC_getHandlerIdx st id) h q' = Some st'
    ∧ wf_state st'
    ∧ IPC_u8HandlerCnt st' = IPC_u8HandlerCnt st
    ∧ (∀ id', IPC_getHandlerIdx st' id' = IPC_getHandlerIdx st id')
    ∧ handler_of st' id = Some (with_queue h q')
    ∧ (∀ id', id' ≠ id → handler_of st' id' = handler_of st id').
Proof.
  intros Hst Hh Hq'.
  destruct (handler_of_Some st id h Hst Hh) as (Hi & Hget & Hid & Hq).
  destruct Hst as [Hlen Hqs Hcnt].
  set (i := IPC_getHandlerIdx st id) in *.
  unfold set_queue. rewrite array_set_in_range by lia. simpl.
  eexists. split; [done|].
  assert (∀ id', IPC_getHandlerIdx
            {| IPC_arHandler := <[Z.to_nat i := with_queue h q']> (IPC_arHandler st);
               IPC_u8HandlerCnt := IPC_u8HandlerCnt st |} id'
          = IPC_getHandlerIdx st id') as Hidx.
  { intros id'. unfold IPC_getHandlerIdx. simpl.
    destruct (0 <? IPC_u8HandlerCnt st); [|done].
    apply IPC_getHandlerIdx_loop_ids.
    rewrite !fmap_take, list_fmap_insert. f_equal.
    apply list_insert_id. rewrite list_lookup_fmap.
    apply array_get_Some in Hget as [_ ->]. done. }
  split; [|split; [done|split; [done|split]]].
  - split; simpl.
    + by rewrite length_insert.
    + by apply Forall_insert.
    + done.
  - unfold handler_of. rewrite Hidx. fold i.
    destruct (Z.eqb_spec i (-1)); [lia|]. simpl.
    apply array_get_set_eq. lia.
  - intros id' Hne. unfold handler_of. rewrite Hidx. simpl.
    destruct (Z.eqb_spec (IPC_getHandlerIdx st id') (-1)) as [|Hne']; [done|].
    destruct (IPC_getHandlerIdx_spec st id') as [|(h' & Hi' & Hh' & Hid')];
      [lia | done |].
    apply array_get_set_ne; [lia | lia |].
    intros Heq. rewrite <- Heq in Hh'. congruence.
Qed.

(** ** One call on a registered inbox *)

(** [IPC_send] to a registered receiver stores the message and reports what
    [xTaskNotifyGive] answered; it does not look at [queueSize]. *)
Lemma IPC_send_registered xTaskNotifyGive st id h aType apData aDataSize :
  wf_state st → handler_of st id = Some h →
  aDataSize < IPC_MAX_DATA_LENGTH →
  aDataSize <= Z.of_nat (length apData) →
  ∃ q' st',
    enqueue (queue h) aType apData aDataSize = Some q'
    ∧ IPC_send xTaskNotifyGive st id aType apData aDataSize
      = Some (if xTaskNotifyGive (handle h) =? pdPASS then E_IPC_SUCCESS
              else E_IPC_ERR_SEND_FAIL, st')
    ∧ set_queue st (IPC_getHandlerIdx st id) h q' = Some st'
    ∧ wf_state st'
    ∧ handler_of st' id = Some (with_queue h q')
    ∧ (∀ id', id' ≠ id → handler_of st' id' = handler_of st id').
Proof.
  intros Hst Hh Hn Hd.
  destruct (handler_of_Some st id h Hst Hh) as (Hi & Hget & Hid & Hq).
  destruct (enqueue_spec (queue h) aType apData aDataSize) as (slot & Hslot & Henq);
    [done..|].
  pose proof (enqueue_wf _ _ _ _ _ Hq Hn Hd Henq) as Hq'.
  destruct (set_queue_spec st id h _ Hst Hh Hq') as (st' & Hset & Hst' & _ & _ & Hh' & Hoth).
  eexists _, st'. split; [exact Henq|].
  split; [|done].
  unfold IPC_send. destruct (Z.leb_spec IPC_MAX_DATA_LENGTH aDataSize); [lia|].
  unfold IPC_HANDLER_CNT_MAX, E_IPC_TASK_ID_LAST in Hi.
  rewrite to_uint8_small by lia.
  destruct (Z.eqb_spec (IPC_getHandlerIdx st id) (-1)); [lia|].
  rewrite Hget. simpl. rewrite Henq. simpl. rewrite Hset. simpl.
  by destruct (xTaskNotifyGive (handle h) =? pdPASS).
Qed.

(** [IPC_receive] on a registered inbox that holds a message. *)
Lemma IPC_receive_registered st id h apBuf :
  wf_state st → handler_of st id = Some h → 0 < queueSize (queue h) →
  ∃ m q' st',
    dequeue (queue h) = Some (m, q')
    ∧ IPC_receive st id apBuf
      = Some (if 0 <? queueSize q' then E_IPC_RECV_MORE else E_IPC_SUCCESS, st', m)
    ∧ set_queue st (IPC_getHandlerIdx st id) h q' = Some st'
    ∧ wf_state st'
    ∧ handler_of st' id = Some (with_queue h q')
    ∧ (∀ id', id' ≠ id → handler_of st' id' = handler_of st id').
Proof.
  intros Hst Hh Hpos.
  destruct (handler_of_Some st id h Hst Hh) as (Hi & Hget & Hid & Hq).
  destruct (dequeue_spec (queue h) Hq) as (m & Hm & Hdeq).
  pose proof (dequeue_wf _ _ _ Hq Hdeq) as Hq'.
  destruct (set_queue_spec st id h _ Hst Hh Hq') as (st' & Hset & Hst' & _ & _ & Hh' & Hoth).
  eexists m, _, st'. split; [exact Hdeq|].
  split; [|done].
  unfold IPC_receive.
  destruct (Z.eqb_spec (IPC_getHandlerIdx st id) (-1)); [lia|].
  rewrite Hget. simpl.
  destruct (Z.eqb_spec (queueSize (queue h)) 0); [lia|].
  rewrite Hdeq. simpl. rewrite Hset. simpl.
  by destruct (0 <? to_uint8 (queueSize (queue h) - 1)).
Qed.

(** [IPC_receive] on a registered inbox that holds nothing. *)
Lemma IPC_receive_empty st id h apBuf :
  handler_of st id = Some h → queueSize (queue h) = 0 →
  IPC_receive st id apBuf = Some (E_IPC_ERR_RECV_FAIL, st, apBuf).
Proof.
  intros Hh Hz. unfold handler_of in Hh. unfold IPC_receive.
  destruct (IPC_getHandlerIdx st id =? -1); [done|].
  rewrite Hh. simpl. by rewrite Hz.
Qed.

(** ** Start-up and registration *)

Lemma wf_zero_queue : wf_queue zero_queue.
Proof.
  split; [reflexivity | | done..].
  apply Forall_replicate. reflexivity.
Qed.

Lemma wf_zero_state : wf_state zero_state.
Proof.
  split; [reflexivity | | done].
  apply Forall_replicate, wf_zero_queue.
Qed.

Lemma wf_initIPCHandler st : wf_state st → wf_state (IPC_initIPCHandler st).
Proof.
  intros [Hlen Hqs Hcnt]. by split.
Qed.

(** The three refusals of [IPC_createHandler], in the order of the code,
    and the registration. *)
Lemma IPC_createHandler_cases st aTaskID aHandle :
  wf_state st →
  ∃ slot, array_get (IPC_arHandler st)
            (if IPC_u8HandlerCnt st =? IPC_HANDLER_CNT_MAX then 0
             else IPC_u8HandlerCnt st) = Some slot ∧
  IPC_createHandler st aTaskID aHandle
  = if aHandle =? NULL then Some (E_IPC_ERR_CREATE_FAIL, st)
    else if IPC_u8HandlerCnt st =? IPC_HANDLER_CNT_MAX then
      Some (E_IPC_ERR_CREATE_FAIL, st)
    else if negb (IPC_getHandlerIdx st aTaskID =? -1) then
      Some (E_IPC_ERR_EXISTS, st)
    else
      Some (E_IPC_SUCCESS,
            {| IPC_arHandler :=
                 <[Z.to_nat (IPC_u8HandlerCnt st) :=
                     {| recvId := aTaskID; handle := aHandle;
                        queue := {| msgQueue := msgQueue (queue slot);
                                    queueTail := 0; queueHead := 0;
                                    queueSize := 0 |} |}]> (IPC_arHandler st);
               IPC_u8HandlerCnt := IPC_u8HandlerCnt st + 1 |}).
Proof.
  intros [Hlen Hqs Hcnt]. unfold IPC_HANDLER_CNT_MAX, E_IPC_TASK_ID_LAST in *.
  destruct (Z.eqb_spec (IPC_u8HandlerCnt st) 255) as [Hfull|Hroom].
  - destruct (array_get_in_range (IPC_arHandler st) 0) as [slot Hslot]; [lia|].
    exists slot. split; [done|]. unfold IPC_createHandler.
    unfold IPC_HANDLER_CNT_MAX, E_IPC_TASK_ID_LAST.
    destruct (aHandle =? NULL); [done|].
    by destruct (Z.eqb_spec (IPC_u8HandlerCnt st) 255).
  - destruct (array_get_in_range (IPC_arHandler st) (IPC_u8HandlerCnt st))
      as [slot Hslot]; [lia|].
    exists slot. split; [done|]. unfold IPC_createHandler.
    unfold IPC_HANDLER_CNT_MAX, E_IPC_TASK_ID_LAST.
    destruct (aHandle =? NULL); [done|].
    destruct (Z.eqb_spec (IPC_u8HandlerCnt st) 255); [done|].
    destruct (negb (IPC_getHandlerIdx st aTaskID =? -1)); [done|].
    rewrite Hslot. simpl. rewrite array_set_in_range by lia. simpl.
    by rewrite to_uint8_small by lia.
Qed.

Lemma IPC_createHandler_wf st aTaskID aHandle e st' :
  wf_state st → IPC_createHandler st aTaskID aHandle = Some (e, st') →
  wf_state st'.
Proof.
  intros Hst Hc.
  destruct (IPC_createHandler_cases st aTaskID aHandle Hst) as (slot & Hslot & Heq).
  rewrite Heq in Hc. clear Heq.
  destruct (aHandle =? NULL); [by simplify_eq|].
  destruct (Z.eqb_spec (IPC_u8HandlerCnt st) IPC_HANDLER_CNT_MAX); [by simplify_eq|].
  destruct (negb (IPC_getHandlerIdx st aTaskID =? -1)); simplify_eq; [done|].
  pose proof Hst as [Hlen Hqs Hcnt].
  split; simpl.
  - by rewrite length_insert.
  - apply Forall_insert; [done|]. simpl.
    apply array_get_Some in Hslot as [_ Hslot].
    pose proof (Forall_lookup_1 _ _ _ _ Hqs Hslot) as [Hl Hm _ _ _].
    split; simpl; try done; unfold IPC_MSG_QUEUE_LENGTH; lia.
  - lia.
Qed.

Lemma create_all_wf st ids : wf_state st → wf_state (create_all st ids).
Proof.
  revert st. induction ids as [|id ids IH]; intros st Hst; simpl; [done|].
  apply IH.
  destruct (IPC_createHandler st id (4096 + id)) as [[e st']|] eqn:Hc; [|done].
  by eapply IPC_createHandler_wf.
Qed.

Lemma wf_demo_state : wf_state demo_state.
Proof. apply create_all_wf, wf_initIPCHandler, wf_zero_state. Qed.

Lemma wf_crowded_state : wf_state crowded_state.
Proof. apply create_all_wf, wf_initIPCHandler, wf_zero_state. Qed.

Lemma handler_of_demo_state :
  handler_of demo_state E_IPC_TASK_ID_1 = Some demo_handler.
Proof. vm_compute. reflexivity. Qed.

(** ** Every call keeps the state well formed *)

Lemma copy_data_reads n i apData buf r :
  copy_data n i apData buf = Some r → 0 <= i → n ≠ 0%nat →
  (Z.to_nat i + n <= length apData)%nat.
Proof.
  revert i buf. induction n as [|n IH]; intros i buf Hc Hi Hn; [done|].
  simpl in Hc.
  destruct (array_get apData i) as [b|] eqn:Hb; [|done]. simpl in Hc.
  destruct (array_set buf i b) as [buf'|]; [|done]. simpl in Hc.
  apply array_get_range in Hb.
  destruct n as [|n']; [lia|].
  apply IH in Hc; lia.
Qed.

Lemma enqueue_reads q aType apData aDataSize q' :
  enqueue q aType apData aDataSize = Some q' →
  aDataSize <= Z.of_nat (length apData).
Proof.
  unfold enqueue. intros Henq.
  destruct (array_get (msgQueue q) (queueTail q)) as [slot|]; [|done].
  simpl in Henq.
  destruct (copy_data (Z.to_nat aDataSize) 0 apData (u8Data slot)) as [r|] eqn:Hc;
    [|done].
  destruct (Z_le_gt_dec aDataSize 0); [lia|].
  apply copy_data_reads in Hc; lia.
Qed.

(** A call of [IPC_send] that has a meaning either refused the size, or
    found the handler of the receiver and could read the payload. *)
Lemma IPC_send_inv xTaskNotifyGive st id aType apData aDataSize e st' :
  wf_state st →
  IPC_send xTaskNotifyGive st id aType apData aDataSize = Some (e, st') →
  (IPC_MAX_DATA_LENGTH <= aDataSize ∧ e = E_IPC_ERR_SEND_FAIL ∧ st' = st)
  ∨ (aDataSize < IPC_MAX_DATA_LENGTH
     ∧ aDataSize <= Z.of_nat (length apData)
     ∧ ∃ h, handler_of st id = Some h).
Proof.
  intros Hst Hsend. unfold IPC_send in Hsend.
  destruct (Z.leb_spec IPC_MAX_DATA_LENGTH aDataSize); [left; by simplify_eq|].
  right. split; [done|].
  pose proof Hst as [Hlen Hqs Hcnt].
  unfold IPC_HANDLER_CNT_MAX, E_IPC_TASK_ID_LAST in *.
  destruct (IPC_getHandlerIdx_spec st id) as [Hnone|(h & Hi & Hh & Hid)]; [lia|..].
  - rewrite Hnone in Hsend. change (to_uint8 (-1)) with 255 in Hsend. simpl in Hsend.
    destruct (array_get (IPC_arHandler st) 255) as [h|] eqn:Hh; [|done].
    apply array_get_range in Hh. lia.
  - rewrite to_uint8_small in Hsend by lia.
    destruct (Z.eqb_spec (IPC_getHandlerIdx st id) (-1)); [lia|].
    rewrite Hh in Hsend. simpl in Hsend.
    destruct (enqueue (queue h) aType apData aDataSize) as [q'|] eqn:Henq; [|done].
    split; [by eapply enqueue_reads|].
    exists h. unfold handler_of.
    by destruct (Z.eqb_spec (IPC_getHandlerIdx st id) (-1)); [lia|].
Qed.

Lemma IPC_send_wf xTaskNotifyGive st id aType apData aDataSize e st' :
  wf_state st →
  IPC_send xTaskNotifyGive st id aType apData aDataSize = Some (e, st') →
  wf_state st'.
Proof.
  intros Hst Hsend.
  destruct (IPC_send_inv _ _ _ _ _ _ _ _ Hst Hsend)
    as [(_ & _ & ->)|(Hn & Hd & h & Hh)]; [done|].
  destruct (IPC_send_registered xTaskNotifyGive st id h aType apData aDataSize)
    as (q' & st'' & _ & Heq & _ & Hwf & _); [done..|].
  rewrite Heq in Hsend. by simplify_eq.
Qed.

Lemma IPC_receive_wf st id apBuf e st' buf' :
  wf_state st → IPC_receive st id apBuf = Some (e, st', buf') → wf_state st'.
Proof.
  intros Hst Hrecv.
  destruct (handler_of st id) as [h|] eqn:Hh.
  - destruct (Z.eq_dec (queueSize (queue h)) 0) as [Hz|Hnz].
    + rewrite (IPC_receive_empty st id h) in Hrecv by done. by simplify_eq.
    + destruct (handler_of_Some st id h Hst Hh) as (_ & _ & _ & [_ _ _ _ Hs]).
      destruct (IPC_receive_registered st id h apBuf)
        as (m & q' & st'' & _ & Heq & _ & Hwf & _); [done | done | lia |].
      rewrite Heq in Hrecv. by simplify_eq.
  - unfold handler_of in Hh. unfold IPC_receive in Hrecv.
    destruct (IPC_getHandlerIdx st id =? -1); [by simplify_eq|].
    by rewrite Hh in Hrecv.
Qed.

Lemma call_wf st id c e st' :
  wf_state st → call st id c = Some (e, st') → wf_state st'.
Proof.
  intros Hst Hc. destruct c as [notify aType apData aDataSize | apBuf]; simpl in Hc.
  - by eapply IPC_send_wf.
  - destruct (IPC_receive st id apBuf) as [[[e' st''] buf']|] eqn:Hr; [|done].
    simpl in Hc. simplify_eq. by eapply IPC_receive_wf.
Qed.

Lemma run_wf st id calls tr st' :
  wf_state st → run st id calls = Some (tr, st') → wf_state st'.
Proof.
  revert st tr. induction calls as [|c cs IH]; intros st tr Hst Hrun; simpl in Hrun.
  - by simplify_eq.
  - destruct (call st id c) as [[e st1]|] eqn:Hc; [|done]. simpl in Hrun.
    destruct (run st1 id cs) as [[tr' st2]|] eqn:Hr; [|done].
    simpl in Hrun. simplify_eq.
    eapply IH; [|done]. by eapply call_wf.
Qed.

(** ** Receiving what the queue holds *)

(** With a message at the front of the contents, [IPC_receive] hands that
    message to the caller and the rest stays queued. *)
Lemma IPC_receive_front st id h m rest apBuf :
  wf_state st → handler_of st id = Some h → contents (queue h) = m :: rest →
  ∃ st' h',
    IPC_receive st id apBuf
    = Some (if decide (rest = []) then E_IPC_SUCCESS else E_IPC_RECV_MORE, st', m)
    ∧ wf_state st' ∧ handler_of st' id = Some h'
    ∧ contents (queue h') = rest
    ∧ (ring_ok (queue h) → ring_ok (queue h')).
Proof.
  intros Hst Hh Hc.
  destruct (handler_of_Some st id h Hst Hh) as (_ & _ & _ & Hq).
  pose proof (contents_length _ Hq) as Hlen. rewrite Hc in Hlen. simpl in Hlen.
  destruct (IPC_receive_registered st id h apBuf)
    as (m' & q' & st' & Hdeq & Heq & _ & Hwf & Hh' & _); [done | done | lia |].
  pose proof (dequeue_contents _ _ _ Hq ltac:(lia) Hdeq) as Hc'.
  rewrite Hc in Hc'. simplify_eq.
  exists st', (with_queue h q'). split; [|split; [done|split; [done|split; [done|]]]].
  - rewrite Heq. do 2 f_equal.
    pose proof (contents_length _ (dequeue_wf _ _ _ Hq Hdeq)) as Hlen'.
    destruct (decide (contents q' = [])) as [Hnil|Hcons].
    + rewrite Hnil in Hlen'. simpl in Hlen'.
      by destruct (Z.ltb_spec 0 (queueSize q')); [lia|].
    + destruct (contents q'); [done|]. simpl in Hlen'.
      by destruct (Z.ltb_spec 0 (queueSize q')); [|lia].
  - intros Hring. simpl. eapply dequeue_ring_ok; [done | lia | done | done].
Qed.

(** As many receives as there are messages in [olds] hand them over in
    order; what was queued behind them is then at the front. *)
Lemma receive_n_drain st id h olds rest apBuf :
  wf_state st → handler_of st id = Some h →
  contents (queue h) = olds ++ rest →
  ∃ rs st' h',
    receive_n (length olds) st id apBuf = Some (rs, st')
    ∧ rs.*2 = olds
    ∧ Forall (λ r, is_success r.1 = true) rs
    ∧ wf_state st' ∧ handler_of st' id = Some h'
    ∧ contents (queue h') = rest.
Proof.
  revert st h apBuf. induction olds as [|m olds IH]; intros st h apBuf Hst Hh Hc.
  - exists [], st, h. simpl. split_and!; done || constructor.
  - destruct (IPC_receive_front st id h m (olds ++ rest) apBuf)
      as (st1 & h1 & Hr & Hst1 & Hh1 & Hc1 & _); [done..|].
    destruct (IH st1 h1 m Hst1 Hh1 Hc1) as (rs & st' & h' & Hn & Hrs & Hok & Hst' & Hh' & Hc').
    eexists (_ :: rs), st', h'. simpl. rewrite Hr. simpl. rewrite Hn. simpl.
    split; [done|]. split; [by subst olds|]. split; [|done].
    constructor; [|done]. simpl. by destruct (decide _).
Qed.

Lemma wf_after st id calls : wf_state st → wf_state (after st id calls).
Proof.
  intros Hst. unfold after.
  destruct (run st id calls) as [[tr st']|] eqn:Hrun; [|done].
  by eapply run_wf.
Qed.

(** * The claims *)

(** ** Sending *)

(** What a send leaves in the inbox of a registered receiver. *)
Lemma IPC_send_stores xTaskNotifyGive st id h aType apData aDataSize :
  wf_state st → handler_of st id = Some h →
  aDataSize < IPC_MAX_DATA_LENGTH →
  aDataSize <= Z.of_nat (length apData) →
  ∃ slot st',
    array_get (msgQueue (queue h)) (queueTail (queue h)) = Some slot
    ∧ IPC_send xTaskNotifyGive st id aType apData aDataSize
      = Some (if xTaskNotifyGive (handle h) =? pdPASS then E_IPC_SUCCESS
              else E_IPC_ERR_SEND_FAIL, st')
    ∧ wf_state st'
    ∧ handler_of st' id
      = Some (with_queue h
               {| msgQueue := <[Z.to_nat (queueTail (queue h)) :=
                                  stored_msg slot aType apData aDataSize]>
                                (msgQueue (queue h));
                  queueTail := (queueTail (queue h) + 1) mod IPC_MSG_QUEUE_LENGTH;
                  queueHead := queueHead (queue h);
                  queueSize := to_uint8 (queueSize (queue h) + 1) |}).
Proof.
  intros Hst Hh Hn Hd.
  destruct (handler_of_Some st id h Hst Hh) as (_ & _ & _ & Hq).
  destruct (enqueue_spec (queue h) aType apData aDataSize) as (slot & Hslot & Henq);
    [done..|].
  destruct (IPC_send_registered xTaskNotifyGive st id h aType apData aDataSize)
    as (q' & st' & Henq' & Heq & _ & Hwf & Hh' & _); [done..|].
  rewrite Henq in Henq'. simplify_eq. by exists slot, st'.
Qed.

(** C5: [IPC_send] answers [E_IPC_ERR_SEND_FAIL] with the state untouched
    exactly when [aDataSize >= IPC_MAX_DATA_LENGTH]; a send of
    [IPC_MAX_DATA_LENGTH - 1] bytes to a registered receiver, the
    notification being delivered, succeeds and stores the message in the
    slot at the tail, the count growing by one. *)
Theorem IPC_send_payload_boundary :
  (∀ xTaskNotifyGive st aRecv aType apData aDataSize,
     IPC_send xTaskNotifyGive st aRecv aType apData aDataSize
     = Some (E_IPC_ERR_SEND_FAIL, st)
     ↔ IPC_MAX_DATA_LENGTH <= aDataSize)
  ∧ (∀ xTaskNotifyGive st aRecv h aType apData,
       wf_state st → handler_of st aRecv = Some h →
       IPC_MAX_DATA_LENGTH - 1 <= Z.of_nat (length apData) →
       xTaskNotifyGive (handle h) = pdPASS →
       ∃ st' h' m,
         IPC_send xTaskNotifyGive st aRecv aType apData (IPC_MAX_DATA_LENGTH - 1)
         = Some (E_IPC_SUCCESS, st')
         ∧ handler_of st' aRecv = Some h'
         ∧ queueSize (queue h') = to_uint8 (queueSize (queue h) + 1)
         ∧ array_get (msgQueue (queue h')) (queueTail (queue h)) = Some m
         ∧ carries m aType apData (IPC_MAX_DATA_LENGTH - 1)).
Proof.
  split.
  - intros notify st aRecv aType apData aDataSize. split.
    + intros Hsend. unfold IPC_send in Hsend.
      destruct (Z.leb_spec IPC_MAX_DATA_LENGTH aDataSize); [done|]. exfalso.
      assert ((to_uint8 (IPC_getHandlerIdx st aRecv) =? -1) = false) as Hcmp.
      { apply Z.eqb_neq. unfold to_uint8.
        pose proof (Z.mod_pos_bound (IPC_getHandlerIdx st aRecv) 256). lia. }
      rewrite Hcmp in Hsend.
      destruct (array_get (IPC_arHandler st) (to_uint8 (IPC_getHandlerIdx st aRecv)))
        as [h|] eqn:Hh; [|done]. simpl in Hsend.
      destruct (enqueue (queue h) aType apData aDataSize) as [q'|] eqn:Henq; [|done].
      simpl in Hsend. unfold set_queue in Hsend.
      destruct (array_set (IPC_arHandler st) (to_uint8 (IPC_getHandlerIdx st aRecv))
                  (with_queue h q')) as [arr'|] eqn:Hset; [|done].
      simpl in Hsend.
      assert (arr' = IPC_arHandler st) as Harr.
      { destruct (notify (handle h) =? pdPASS); [done|].
        injection Hsend as Hs. by rewrite <- Hs. }
      apply array_set_Some in Hset as [Hi ->].
      apply array_get_Some in Hh as [_ Hh].
      assert (IPC_arHandler st !! Z.to_nat (to_uint8 (IPC_getHandlerIdx st aRecv))
              = Some (with_queue h q')) as Hh2.
      { rewrite <- Harr. apply list_lookup_insert_eq. lia. }
      rewrite Hh in Hh2. injection Hh2 as Hh2.
      apply (f_equal (λ x, queueSize (queue x))) in Hh2. simpl in Hh2.
      symmetry in Hh2. rename Hh2 into Hsz.
      unfold enqueue in Henq.
      destruct (array_get (msgQueue (queue h)) (queueTail (queue h))); [|done].
      simpl in Henq. destruct (copy_data _ _ _ _); [|done]. simpl in Henq.
      destruct (array_set _ _ _); [|done]. simpl in Henq. simplify_eq.
      simpl in Hsz. unfold to_uint8 in Hsz.
      pose proof (Z.mod_pos_bound (queueSize (queue h) + 1) 256).
      assert ((queueSize (queue h) + 1) mod 256 = (queueSize (queue h) mod 256 + 1) mod 256)
        as Hm by (by rewrite Zplus_mod_idemp_l).
      rewrite (Z.mod_small (queueSize (queue h))) in Hm by lia.
      destruct (Z.eq_dec (queueSize (queue h)) 255) as [Heq|Hne].
      * rewrite Heq in Hsz. by vm_compute in Hsz.
      * rewrite Z.mod_small in Hsz by lia. lia.
    + intros Hbig. unfold IPC_send.
      by destruct (Z.leb_spec IPC_MAX_DATA_LENGTH aDataSize); [|lia].
  - intros notify st aRecv h aType apData Hst Hh Hd Hpass.
    destruct (IPC_send_stores notify st aRecv h aType apData (IPC_MAX_DATA_LENGTH - 1))
      as (slot & st' & Hslot & Heq & _ & Hh'); [done | done | lia | done |].
    destruct (handler_of_Some st aRecv h Hst Hh) as (_ & _ & _ & [Hlen _ Ht _ _]).
    rewrite Hpass in Heq. simpl in Heq.
    eexists st', _, _. split; [done|]. split; [done|]. simpl. split; [done|].
    split; [apply array_get_set_eq; lia|].
    apply stored_msg_carries; unfold IPC_MAX_DATA_LENGTH in *; lia.
Qed.

Lemma IPC_send_payload_boundary_witness :
  ∃ st' h' m,
    IPC_send notify_pass demo_state E_IPC_TASK_ID_1 E_IPC_MSG_TYPE_2
      (replicate 511 x41) (IPC_MAX_DATA_LENGTH - 1)
    = Some (E_IPC_SUCCESS, st')
    ∧ handler_of st' E_IPC_TASK_ID_1 = Some h'
    ∧ queueSize (queue h') = to_uint8 (queueSize (queue demo_handler) + 1)
    ∧ array_get (msgQueue (queue h')) (queueTail (queue demo_handler)) = Some m
    ∧ carries m E_IPC_MSG_TYPE_2 (replicate 511 x41) (IPC_MAX_DATA_LENGTH - 1).
Proof.
  apply (proj2 IPC_send_payload_boundary notify_pass demo_state E_IPC_TASK_ID_1
           demo_handler E_IPC_MSG_TYPE_2 (replicate 511 x41)).
  - apply wf_demo_state.
  - vm_compute. reflexivity.
  - vm_compute. discriminate.
  - reflexivity.
Defined.

(** C2 (the code differs): with no handler for [aRecv] and a size that
    passes the size check, [IPC_send] does not answer
    [E_IPC_ERR_NO_HANDLER]: the [-1] of [IPC_getHandlerIdx] becomes 255 in
    the [uint8_t] [handlerIdx], the comparison with [-1] fails, and the
    function goes on to [IPC_arHandler[255]], outside the array. *)
Theorem IPC_send_unregistered xTaskNotifyGive st aRecv aType apData aDataSize :
  wf_state st → handler_of st aRecv = None →
  aDataSize < IPC_MAX_DATA_LENGTH →
  to_uint8 (IPC_getHandlerIdx st aRecv) = 255
  ∧ IPC_send xTaskNotifyGive st aRecv aType apData aDataSize = None.
Proof.
  intros [Hlen Hqs Hcnt] Hnone Hn.
  unfold IPC_HANDLER_CNT_MAX, E_IPC_TASK_ID_LAST in *.
  apply handler_of_None in Hnone; [|lia].
  unfold IPC_send. rewrite Hnone. split; [done|].
  destruct (Z.leb_spec IPC_MAX_DATA_LENGTH aDataSize); [lia|].
  change (to_uint8 (-1)) with 255. simpl.
  destruct (array_get (IPC_arHandler st) 255) as [h|] eqn:Hh; [|done].
  apply array_get_range in Hh. lia.
Qed.

Lemma IPC_send_unregistered_witness :
  to_uint8 (IPC_getHandlerIdx demo_state E_IPC_TASK_ID_2) = 255
  ∧ IPC_send notify_pass demo_state E_IPC_TASK_ID_2 E_IPC_MSG_TYPE_1 [x68; x69] 2
    = None.
Proof.
  apply IPC_send_unregistered.
  - apply wf_demo_state.
  - vm_compute. reflexivity.
  - vm_compute. reflexivity.
Defined.

(** No call of [IPC_send] answers [E_IPC_ERR_NO_HANDLER]. *)
Lemma IPC_send_never_NO_HANDLER xTaskNotifyGive st aRecv aType apData aDataSize st' :
  IPC_send xTaskNotifyGive st aRecv aType apData aDataSize
  ≠ Some (E_IPC_ERR_NO_HANDLER, st').
Proof.
  unfold IPC_send. destruct (IPC_MAX_DATA_LENGTH <=? aDataSize); [done|].
  assert ((to_uint8 (IPC_getHandlerIdx st aRecv) =? -1) = false) as ->.
  { apply Z.eqb_neq. unfold to_uint8.
    pose proof (Z.mod_pos_bound (IPC_getHandlerIdx st aRecv) 256). lia. }
  destruct (array_get _ _) as [h|]; [|done]. simpl.
  destruct (enqueue _ _ _ _); [|done]. simpl.
  destruct (set_queue _ _ _ _); [|done]. simpl.
  by destruct (xTaskNotifyGive (handle h) =? pdPASS).
Qed.

(** ** Receiving *)

(** C6: on a registered inbox that holds a message, [IPC_receive] gives the
    caller the message of the slot at the head, moves the head one slot on
    modulo [IPC_MSG_QUEUE_LENGTH], takes one off the count, and answers
    [E_IPC_RECV_MORE] exactly when the new count is positive and
    [E_IPC_SUCCESS] exactly when it is zero. *)
Theorem IPC_receive_nonempty st id h apBuf :
  wf_state st → handler_of st id = Some h → 0 < queueSize (queue h) →
  ∃ m e st',
    array_get (msgQueue (queue h)) (queueHead (queue h)) = Some m
    ∧ IPC_receive st id apBuf = Some (e, st', m)
    ∧ handler_of st' id
      = Some (with_queue h
                {| msgQueue := msgQueue (queue h);
                   queueTail := queueTail (queue h);
                   queueHead := (queueHead (queue h) + 1) mod IPC_MSG_QUEUE_LENGTH;
                   queueSize := queueSize (queue h) - 1 |})
    ∧ (e = E_IPC_RECV_MORE ↔ 0 < queueSize (queue h) - 1)
    ∧ (e = E_IPC_SUCCESS ↔ queueSize (queue h) - 1 = 0).
Proof.
  intros Hst Hh Hpos.
  destruct (handler_of_Some st id h Hst Hh) as (_ & _ & _ & Hq).
  destruct (dequeue_spec (queue h) Hq) as (m & Hm & Hdeq).
  destruct (IPC_receive_registered st id h apBuf Hst Hh Hpos)
    as (m' & q' & st' & Hdeq' & Heq & _ & _ & Hh' & _).
  rewrite Hdeq in Hdeq'. simplify_eq.
  destruct Hq as [_ _ _ _ Hs]. simpl in *.
  rewrite to_uint8_small in * by lia.
  eexists _, _, st'. split; [done|]. split; [done|]. split; [done|].
  destruct (Z.ltb_spec 0 (queueSize (queue h) - 1)); split; split; intros; done || lia.
Qed.

Lemma IPC_receive_nonempty_witness :
  ∃ h, handler_of (after demo_state E_IPC_TASK_ID_1 (sends 2)) E_IPC_TASK_ID_1 = Some h
  ∧ 0 < queueSize (queue h)
  ∧ ∃ m e st',
    array_get (msgQueue (queue h)) (queueHead (queue h)) = Some m
    ∧ IPC_receive (after demo_state E_IPC_TASK_ID_1 (sends 2)) E_IPC_TASK_ID_1 zero_msg
      = Some (e, st', m)
    ∧ handler_of st' E_IPC_TASK_ID_1
      = Some (with_queue h
                {| msgQueue := msgQueue (queue h);
                   queueTail := queueTail (queue h);
                   queueHead := (queueHead (queue h) + 1) mod IPC_MSG_QUEUE_LENGTH;
                   queueSize := queueSize (queue h) - 1 |})
    ∧ (e = E_IPC_RECV_MORE ↔ 0 < queueSize (queue h) - 1)
    ∧ (e = E_IPC_SUCCESS ↔ queueSize (queue h) - 1 = 0).
Proof.
  eexists. split; [vm_compute; reflexivity|]. split; [reflexivity|].
  apply IPC_receive_nonempty.
  - apply wf_after, wf_demo_state.
  - vm_compute. reflexivity.
  - reflexivity.
Defined.

(** C8: on a registered inbox that holds nothing, any number of calls of
    [IPC_receive] in a row answer [E_IPC_ERR_RECV_FAIL] each and leave the
    whole state, so head, tail and count of the queue, as it was. *)
Theorem IPC_receive_empty_idempotent st id h (n : nat) apBuf :
  handler_of st id = Some h → queueSize (queue h) = 0 →
  receive_n n st id apBuf = Some (replicate n (E_IPC_ERR_RECV_FAIL, apBuf), st).
Proof.
  intros Hh Hz. induction n as [|n IH]; simpl; [done|].
  rewrite (IPC_receive_empty st id h) by done. simpl. by rewrite IH.
Qed.

Lemma IPC_receive_empty_idempotent_witness :
  receive_n 5 demo_state E_IPC_TASK_ID_1 zero_msg
  = Some (replicate 5 (E_IPC_ERR_RECV_FAIL, zero_msg), demo_state).
Proof.
  apply (IPC_receive_empty_idempotent demo_state E_IPC_TASK_ID_1 demo_handler).
  - vm_compute. reflexivity.
  - reflexivity.
Defined.

(** C10: [IPC_receive] answers [E_IPC_ERR_NO_HANDLER] when no handler is
    registered for the task and [E_IPC_ERR_RECV_FAIL] when the queue of its
    handler is empty, and whenever its answer is neither [E_IPC_SUCCESS]
    nor [E_IPC_RECV_MORE] it is one of these two and the caller's buffer
    and the state are as before the call. *)
Theorem IPC_receive_failure_keeps_buffer st id apBuf :
  (IPC_getHandlerIdx st id = -1 →
   IPC_receive st id apBuf = Some (E_IPC_ERR_NO_HANDLER, st, apBuf))
  ∧ (∀ h, handler_of st id = Some h → queueSize (queue h) = 0 →
          IPC_receive st id apBuf = Some (E_IPC_ERR_RECV_FAIL, st, apBuf))
  ∧ (∀ e st' buf',
       IPC_receive st id apBuf = Some (e, st', buf') → is_success e = false →
       (e = E_IPC_ERR_NO_HANDLER ∨ e = E_IPC_ERR_RECV_FAIL)
       ∧ buf' = apBuf ∧ st' = st).
Proof.
  split; [|split].
  - intros Hidx. unfold IPC_receive. by rewrite Hidx.
  - intros h Hh Hz. by apply (IPC_receive_empty st id h).
  - intros e st' buf' Hr Hfail. unfold IPC_receive in Hr.
    destruct (IPC_getHandlerIdx st id =? -1); [simplify_eq; auto|].
    destruct (array_get _ _) as [h|]; [|done]. simpl in Hr.
    destruct (queueSize (queue h) =? 0); [simplify_eq; auto|].
    destruct (dequeue (queue h)) as [[m q']|]; [|done]. simpl in Hr.
    destruct (set_queue _ _ _ _); [|done]. simpl in Hr.
    destruct (0 <? queueSize q'); by simplify_eq.
Qed.

Lemma IPC_receive_failure_keeps_buffer_witness :
  IPC_receive demo_state E_IPC_TASK_ID_2 zero_msg
  = Some (E_IPC_ERR_NO_HANDLER, demo_state, zero_msg)
  ∧ IPC_receive demo_state E_IPC_TASK_ID_1 zero_msg
    = Some (E_IPC_ERR_RECV_FAIL, demo_state, zero_msg).
Proof.
  split.
  - apply (proj1 (IPC_receive_failure_keeps_buffer demo_state E_IPC_TASK_ID_2 zero_msg)).
    vm_compute. reflexivity.
  - apply (proj1 (proj2 (IPC_receive_failure_keeps_buffer demo_state E_IPC_TASK_ID_1
                           zero_msg)) demo_handler).
    + vm_compute. reflexivity.
    + reflexivity.
Defined.

(** ** Registering *)

(** After a registration the task is found, at the entry that was free. *)
Lemma IPC_createHandler_registers st aTaskID aHandle st' :
  wf_state st →
  IPC_createHandler st aTaskID aHandle = Some (E_IPC_SUCCESS, st') →
  aHandle ≠ NULL
  ∧ IPC_u8HandlerCnt st' = IPC_u8HandlerCnt st + 1
  ∧ IPC_getHandlerIdx st' aTaskID = IPC_u8HandlerCnt st.
Proof.
  intros Hst Hc.
  destruct (IPC_createHandler_cases st aTaskID aHandle Hst) as (slot & Hslot & Heq).
  rewrite Heq in Hc. clear Heq.
  destruct (Z.eqb_spec aHandle NULL); [done|].
  destruct (Z.eqb_spec (IPC_u8HandlerCnt st) IPC_HANDLER_CNT_MAX); [done|].
  destruct (Z.eqb_spec (IPC_getHandlerIdx st aTaskID) (-1)) as [Hnone|]; [|done].
  simpl in Hc. simplify_eq. split; [done|]. split; [done|].
  destruct Hst as [Hlen Hqs Hcnt].
  unfold IPC_getHandlerIdx in *. simpl.
  destruct (Z.ltb_spec 0 (IPC_u8HandlerCnt st + 1)); [|lia].
  replace (Z.to_nat (IPC_u8HandlerCnt st + 1))
    with (S (Z.to_nat (IPC_u8HandlerCnt st))) by lia.
  erewrite take_S_r by (apply list_lookup_insert_eq; lia).
  rewrite take_insert_ge by lia.
  rewrite IPC_getHandlerIdx_loop_app; [| lia | | done].
  - rewrite length_take. lia.
  - destruct (0 <? IPC_u8HandlerCnt st) eqn:Hpos; [done|].
    apply Z.ltb_ge in Hpos.
    by replace (IPC_u8HandlerCnt st) with 0 by lia.
Qed.

(** A registration gives the task an empty inbox in ring discipline. *)
Lemma IPC_createHandler_fresh st aTaskID aHandle st' :
  wf_state st →
  IPC_createHandler st aTaskID aHandle = Some (E_IPC_SUCCESS, st') →
  ∃ h, handler_of st' aTaskID = Some h
       ∧ recvId h = aTaskID ∧ handle h = aHandle
       ∧ queueSize (queue h) = 0 ∧ queueHead (queue h) = 0
       ∧ queueTail (queue h) = 0
       ∧ ring_ok (queue h) ∧ contents (queue h) = [].
Proof.
  intros Hst Hc.
  destruct (IPC_createHandler_registers _ _ _ _ Hst Hc) as (_ & _ & Hidx).
  destruct (IPC_createHandler_cases st aTaskID aHandle Hst) as (slot & Hslot & Heq).
  rewrite Heq in Hc. clear Heq.
  destruct (aHandle =? NULL); [done|].
  destruct (Z.eqb_spec (IPC_u8HandlerCnt st) IPC_HANDLER_CNT_MAX); [done|].
  destruct (negb (IPC_getHandlerIdx st aTaskID =? -1)); [done|].
  destruct Hst as [Hlen _ Hcnt].
  eexists. split.
  - unfold handler_of. rewrite Hidx.
    destruct (Z.eqb_spec (IPC_u8HandlerCnt st) (-1)); [lia|].
    simplify_eq. simpl. apply array_get_set_eq. lia.
  - by split_and!.
Qed.

(** C9 (amended): after a successful registration of a task, a second
    registration of the same task with any non-null handle is refused and
    changes nothing; the answer is [E_IPC_ERR_EXISTS], unless the first
    registration took the last free entry, in which case the check of the
    table size comes first and the answer is [E_IPC_ERR_CREATE_FAIL]. *)
Theorem IPC_createHandler_twice st aTaskID aHandle aHandle' st1 :
  wf_state st →
  IPC_createHandler st aTaskID aHandle = Some (E_IPC_SUCCESS, st1) →
  aHandle' ≠ NULL →
  IPC_createHandler st1 aTaskID aHandle'
  = Some (if IPC_u8HandlerCnt st1 =? IPC_HANDLER_CNT_MAX
          then E_IPC_ERR_CREATE_FAIL else E_IPC_ERR_EXISTS, st1).
Proof.
  intros Hst Hc Hh'.
  destruct (IPC_createHandler_registers _ _ _ _ Hst Hc) as (_ & Hcnt1 & Hidx).
  destruct Hst as [_ _ Hcnt].
  unfold IPC_createHandler.
  destruct (Z.eqb_spec aHandle' NULL); [done|].
  destruct (IPC_u8HandlerCnt st1 =? IPC_HANDLER_CNT_MAX); [done|].
  rewrite Hidx. by destruct (Z.eqb_spec (IPC_u8HandlerCnt st) (-1)); [lia|].
Qed.

Lemma IPC_createHandler_twice_witness :
  IPC_createHandler demo_state E_IPC_TASK_ID_1 12345
  = Some (if IPC_u8HandlerCnt demo_state =? IPC_HANDLER_CNT_MAX
          then E_IPC_ERR_CREATE_FAIL else E_IPC_ERR_EXISTS, demo_state).
Proof.
  apply (IPC_createHandler_twice (IPC_initIPCHandler zero_state) E_IPC_TASK_ID_1
           (4096 + E_IPC_TASK_ID_1)).
  - apply wf_initIPCHandler, wf_zero_state.
  - reflexivity.
  - discriminate.
Defined.

(** C9 as stated fails: with 254 handlers in the table, the registration
    of task 255 succeeds and fills the table, and the second registration
    of task 255 is answered with [E_IPC_ERR_CREATE_FAIL], not with
    [E_IPC_ERR_EXISTS]. *)
Lemma IPC_createHandler_twice_full_table :
  IPC_u8HandlerCnt crowded_state = 254
  ∧ register_twice crowded_state E_IPC_TASK_ID_LAST 5000 6000
    = Some (E_IPC_SUCCESS, 255, E_IPC_ERR_CREATE_FAIL, 255)
  ∧ register_twice crowded_state E_IPC_TASK_ID_LAST 5000 6000
    ≠ Some (E_IPC_SUCCESS, 255, E_IPC_ERR_EXISTS, 255).
Proof. vm_compute. repeat split. discriminate. Qed.

(** ** First in, first out *)

(** A send that stores its message into a queue with a free slot puts it
    behind the messages that the queue holds. *)
Lemma IPC_send_appends xTaskNotifyGive st id h aType apData aDataSize e st' :
  wf_state st → handler_of st id = Some h →
  ring_ok (queue h) → queueSize (queue h) < IPC_MSG_QUEUE_LENGTH →
  0 <= aDataSize < IPC_MAX_DATA_LENGTH →
  IPC_send xTaskNotifyGive st id aType apData aDataSize = Some (e, st') →
  ∃ h' m,
    wf_state st' ∧ handler_of st' id = Some h'
    ∧ ring_ok (queue h')
    ∧ contents (queue h') = contents (queue h) ++ [m]
    ∧ carries m aType apData aDataSize
    ∧ queueSize (queue h') = queueSize (queue h) + 1
    ∧ queueHead (queue h') = queueHead (queue h)
    ∧ queueTail (queue h') = (queueTail (queue h) + 1) mod IPC_MSG_QUEUE_LENGTH
    ∧ array_get (msgQueue (queue h')) (queueTail (queue h)) = Some m.
Proof.
  intros Hst Hh Hring Hroom Hn Hsend.
  destruct (IPC_send_inv _ _ _ _ _ _ _ _ Hst Hsend)
    as [(Hbig & _)|(_ & Hd & _)]; [lia|].
  destruct (handler_of_Some st id h Hst Hh) as (_ & _ & _ & Hq).
  destruct (enqueue_spec (queue h) aType apData aDataSize) as (slot & Hslot & Henq);
    [done | lia | done |].
  destruct (IPC_send_registered xTaskNotifyGive st id h aType apData aDataSize)
    as (q' & st'' & Henq' & Heq & _ & Hwf & Hh' & _); [done | done | lia | done |].
  assert (st'' = st') as ->.
  { rewrite Heq in Hsend. by destruct (_ =? _); simplify_eq. }
  destruct (enqueue_contents _ _ _ _ _ Hq Hring Hroom (proj2 Hn) Hd Henq')
    as (Hring' & slot' & Hslot' & Hc).
  assert (slot' = slot) as -> by congruence.
  rewrite Henq in Henq'. simplify_eq.
  destruct Hq as [Hlen _ Ht _ Hs].
  eexists _, _. split; [done|]. split; [exact Hh'|]. simpl.
  split; [done|]. split; [exact Hc|].
  split; [apply stored_msg_carries; done || lia|].
  split; [apply to_uint8_small; unfold IPC_MSG_QUEUE_LENGTH in *; lia|].
  split; [done|]. split; [done|].
  apply array_get_set_eq. lia.
Qed.

(** After the messages [olds] at the front have been received, a queue
    that holds [m] behind them hands [m] over. *)
Lemma receive_after_drain st id h olds m rest apBuf :
  wf_state st → handler_of st id = Some h →
  contents (queue h) = olds ++ m :: rest →
  ∃ rs s3,
    receive_n (length olds) st id apBuf = Some (rs, s3)
    ∧ rs.*2 = olds
    ∧ Forall (λ r, is_success r.1 = true) rs
    ∧ ∀ apBuf', ∃ s4 h4,
        IPC_receive s3 id apBuf'
        = Some (if decide (rest = []) then E_IPC_SUCCESS else E_IPC_RECV_MORE, s4, m)
        ∧ wf_state s4 ∧ handler_of s4 id = Some h4
        ∧ contents (queue h4) = rest.
Proof.
  intros Hst Hh Hc.
  destruct (receive_n_drain st id h olds (m :: rest) apBuf Hst Hh Hc)
    as (rs & s3 & h3 & Hn & Hrs & Hok & Hst3 & Hh3 & Hc3).
  exists rs, s3. split; [done|]. split; [done|]. split; [done|].
  intros apBuf'.
  destruct (IPC_receive_front s3 id h3 m rest apBuf' Hst3 Hh3 Hc3)
    as (s4 & h4 & Hr & Hst4 & Hh4 & Hc4 & _).
  by exists s4, h4.
Qed.

(** C4 (amended): two successful sends, of A and then of B, to a registered
    inbox whose queue has room for both, with no receive in between: once
    the messages that were queued before A have been received (none, for an
    empty inbox), the next two receives hand over A and then B, with type,
    size and payload bytes. *)
Theorem FIFO_two_sends xTaskNotifyGive xTaskNotifyGive' st id h
    aTypeA apDataA aSizeA aTypeB apDataB aSizeB s1 s2 apBuf :
  wf_state st → handler_of st id = Some h →
  ring_ok (queue h) → queueSize (queue h) + 2 <= IPC_MSG_QUEUE_LENGTH →
  0 <= aSizeA → 0 <= aSizeB →
  IPC_send xTaskNotifyGive st id aTypeA apDataA aSizeA = Some (E_IPC_SUCCESS, s1) →
  IPC_send xTaskNotifyGive' s1 id aTypeB apDataB aSizeB = Some (E_IPC_SUCCESS, s2) →
  ∃ rs s3,
    receive_n (Z.to_nat (queueSize (queue h))) s2 id apBuf = Some (rs, s3)
    ∧ rs.*2 = contents (queue h)
    ∧ Forall (λ r, is_success r.1 = true) rs
    ∧ ∀ apBuf1 apBuf2, ∃ mA s4 mB s5,
        IPC_receive s3 id apBuf1 = Some (E_IPC_RECV_MORE, s4, mA)
        ∧ carries mA aTypeA apDataA aSizeA
        ∧ IPC_receive s4 id apBuf2 = Some (E_IPC_SUCCESS, s5, mB)
        ∧ carries mB aTypeB apDataB aSizeB.
Proof.
  intros Hst Hh Hring Hroom HA HB HsendA HsendB.
  destruct (handler_of_Some st id h Hst Hh) as (_ & _ & _ & Hq).
  assert (aSizeA < IPC_MAX_DATA_LENGTH) as HnA.
  { destruct (IPC_send_inv _ _ _ _ _ _ _ _ Hst HsendA) as [(_ & ? & _)|(? & _)]; done. }
  assert (queueSize (queue h) < IPC_MSG_QUEUE_LENGTH) as Hroom0 by lia.
  destruct (IPC_send_appends _ _ _ _ _ _ _ _ _ Hst Hh Hring Hroom0 (conj HA HnA) HsendA)
    as (h1 & mA & Hst1 & Hh1 & Hring1 & Hc1 & HcA & Hsz1 & _).
  assert (aSizeB < IPC_MAX_DATA_LENGTH) as HnB.
  { destruct (IPC_send_inv _ _ _ _ _ _ _ _ Hst1 HsendB) as [(_ & ? & _)|(? & _)]; done. }
  assert (queueSize (queue h1) < IPC_MSG_QUEUE_LENGTH) as Hroom1 by lia.
  destruct (IPC_send_appends _ _ _ _ _ _ _ _ _ Hst1 Hh1 Hring1 Hroom1 (conj HB HnB) HsendB)
    as (h2 & mB & Hst2 & Hh2 & Hring2 & Hc2 & HcB & Hsz2 & _).
  rewrite Hc1, <- app_assoc in Hc2. simpl in Hc2.
  destruct (receive_after_drain s2 id h2 _ mA [mB] apBuf Hst2 Hh2 Hc2)
    as (rs & s3 & Hn & Hrs & Hok & Hnext).
  replace (length (contents (queue h))) with (Z.to_nat (queueSize (queue h))) in Hn
    by (pose proof (contents_length _ Hq); lia).
  exists rs, s3. split; [done|]. split; [done|]. split; [done|].
  intros apBuf1 apBuf2.
  destruct (Hnext apBuf1) as (s4 & h4 & Hr4 & Hst4 & Hh4 & Hc4).
  destruct (IPC_receive_front s4 id h4 mB [] apBuf2 Hst4 Hh4 Hc4)
    as (s5 & h5 & Hr5 & _).
  exists mA, s4, mB, s5. by rewrite Hr4, Hr5.
Qed.

Lemma FIFO_two_sends_witness :
  ∃ rs s3,
    receive_n (Z.to_nat (queueSize (queue demo_handler)))
      (after demo_state E_IPC_TASK_ID_1
         [Send notify_pass E_IPC_MSG_TYPE_1 [x68; x69] 2;
          Send notify_pass E_IPC_MSG_TYPE_2 [x79; x6f] 2])
      E_IPC_TASK_ID_1 zero_msg = Some (rs, s3)
    ∧ rs.*2 = contents (queue demo_handler)
    ∧ Forall (λ r, is_success r.1 = true) rs
    ∧ ∀ apBuf1 apBuf2, ∃ mA s4 mB s5,
        IPC_receive s3 E_IPC_TASK_ID_1 apBuf1 = Some (E_IPC_RECV_MORE, s4, mA)
        ∧ carries mA E_IPC_MSG_TYPE_1 [x68; x69] 2
        ∧ IPC_receive s4 E_IPC_TASK_ID_1 apBuf2 = Some (E_IPC_SUCCESS, s5, mB)
        ∧ carries mB E_IPC_MSG_TYPE_2 [x79; x6f] 2.
Proof.
  apply (FIFO_two_sends notify_pass notify_pass demo_state E_IPC_TASK_ID_1
           demo_handler E_IPC_MSG_TYPE_1 [x68; x69] 2 E_IPC_MSG_TYPE_2 [x79; x6f] 2
           (after demo_state E_IPC_TASK_ID_1
              [Send notify_pass E_IPC_MSG_TYPE_1 [x68; x69] 2])).
  - apply wf_demo_state.
  - vm_compute. reflexivity.
  - vm_compute. split; [discriminate | reflexivity].
  - vm_compute. discriminate.
  - lia.
  - lia.
  - reflexivity.
  - reflexivity.
Defined.

(** C4 as stated fails: an inbox holds one message; A and then B are sent,
    both successfully; the next two receives hand over the message that
    was there before and then A, not A and then B. *)
Lemma FIFO_next_two_receives_older_message :
  ∃ m1 m2,
    two_sends_two_receives (after demo_state E_IPC_TASK_ID_1 (sends 1)) E_IPC_TASK_ID_1
      (E_IPC_MSG_TYPE_2, [x41], 1) (E_IPC_MSG_TYPE_2, [x42], 1)
    = Some (E_IPC_SUCCESS, E_IPC_SUCCESS, (E_IPC_RECV_MORE, m1), (E_IPC_RECV_MORE, m2))
    ∧ ¬ carries_sent m1 (E_IPC_MSG_TYPE_2, [x41], 1)
    ∧ ¬ carries_sent m2 (E_IPC_MSG_TYPE_2, [x42], 1)
    ∧ carries_sent m1 (E_IPC_MSG_TYPE_1, [byte_of 1], 1)
    ∧ carries_sent m2 (E_IPC_MSG_TYPE_2, [x41], 1).
Proof.
  eexists _, _. split; [vm_compute; reflexivity|].
  split; [intros (Ht & _); vm_compute in Ht; discriminate|].
  split; [intros (_ & _ & Hd); vm_compute in Hd; discriminate|].
  split; vm_compute; done.
Qed.

(** ** A notification that is not delivered *)

(** C7: when the message has been stored in a registered inbox with a free
    slot and [xTaskNotifyGive] does not answer [pdPASS], [IPC_send] answers
    [E_IPC_ERR_SEND_FAIL] and leaves exactly the state of a fully successful
    send: the count is one more, the tail one slot on, the message is in
    the slot at the old tail, and after the messages queued before it a
    receive hands it over. *)
Theorem IPC_send_wake_failure xTaskNotifyGive st id h aType apData aDataSize apBuf :
  wf_state st → handler_of st id = Some h →
  ring_ok (queue h) → queueSize (queue h) < IPC_MSG_QUEUE_LENGTH →
  0 <= aDataSize < IPC_MAX_DATA_LENGTH →
  aDataSize <= Z.of_nat (length apData) →
  xTaskNotifyGive (handle h) ≠ pdPASS →
  ∃ st' h' m,
    IPC_send xTaskNotifyGive st id aType apData aDataSize
    = Some (E_IPC_ERR_SEND_FAIL, st')
    ∧ IPC_send notify_pass st id aType apData aDataSize = Some (E_IPC_SUCCESS, st')
    ∧ handler_of st' id = Some h'
    ∧ queueSize (queue h') = queueSize (queue h) + 1
    ∧ queueTail (queue h') = (queueTail (queue h) + 1) mod IPC_MSG_QUEUE_LENGTH
    ∧ queueHead (queue h') = queueHead (queue h)
    ∧ array_get (msgQueue (queue h')) (queueTail (queue h)) = Some m
    ∧ carries m aType apData aDataSize
    ∧ ∃ rs s3,
        receive_n (Z.to_nat (queueSize (queue h))) st' id apBuf = Some (rs, s3)
        ∧ rs.*2 = contents (queue h)
        ∧ ∀ apBuf', ∃ s4,
            IPC_receive s3 id apBuf' = Some (E_IPC_SUCCESS, s4, m).
Proof.
  intros Hst Hh Hring Hroom Hn Hd Hfail.
  destruct (handler_of_Some st id h Hst Hh) as (_ & _ & _ & Hq).
  destruct (IPC_send_registered xTaskNotifyGive st id h aType apData aDataSize)
    as (q' & st' & Henq & Heq & Hset & _); [done | done | lia | done |].
  destruct (IPC_send_registered notify_pass st id h aType apData aDataSize)
    as (q'' & st'' & Henq' & Heq' & Hset' & _); [done | done | lia | done |].
  assert (q'' = q') as -> by congruence.
  assert (st'' = st') as -> by congruence.
  destruct (Z.eqb_spec (xTaskNotifyGive (handle h)) pdPASS) as [|_]; [done|].
  change (notify_pass (handle h) =? pdPASS) with true in Heq'.
  destruct (IPC_send_appends _ _ _ _ _ _ _ _ _ Hst Hh Hring Hroom Hn Heq)
    as (h' & m & Hst' & Hh' & _ & Hc & Hcar & Hsz & Hhead & Htail & Hslot).
  exists st', h', m. do 8 (split; [done|]).
  destruct (receive_after_drain st' id h' _ m [] apBuf Hst' Hh' Hc)
    as (rs & s3 & Hrn & Hrs & _ & Hnext).
  replace (length (contents (queue h))) with (Z.to_nat (queueSize (queue h))) in Hrn
    by (pose proof (contents_length _ Hq); lia).
  exists rs, s3. split; [done|]. split; [done|].
  intros apBuf'. destruct (Hnext apBuf') as (s4 & h4 & Hr & _). by exists s4.
Qed.

Lemma IPC_send_wake_failure_witness :
  ∃ st' h' m,
    IPC_send notify_fail demo_state E_IPC_TASK_ID_1 E_IPC_MSG_TYPE_2 [x68; x69] 2
    = Some (E_IPC_ERR_SEND_FAIL, st')
    ∧ IPC_send notify_pass demo_state E_IPC_TASK_ID_1 E_IPC_MSG_TYPE_2 [x68; x69] 2
      = Some (E_IPC_SUCCESS, st')
    ∧ handler_of st' E_IPC_TASK_ID_1 = Some h'
    ∧ queueSize (queue h') = queueSize (queue demo_handler) + 1
    ∧ queueTail (queue h')
      = (queueTail (queue demo_handler) + 1) mod IPC_MSG_QUEUE_LENGTH
    ∧ queueHead (queue h') = queueHead (queue demo_handler)
    ∧ array_get (msgQueue (queue h')) (queueTail (queue demo_handler)) = Some m
    ∧ carries m E_IPC_MSG_TYPE_2 [x68; x69] 2
    ∧ ∃ rs s3,
        receive_n (Z.to_nat (queueSize (queue demo_handler))) st' E_IPC_TASK_ID_1
          zero_msg = Some (rs, s3)
        ∧ rs.*2 = contents (queue demo_handler)
        ∧ ∀ apBuf', ∃ s4,
            IPC_receive s3 E_IPC_TASK_ID_1 apBuf' = Some (E_IPC_SUCCESS, s4, m).
Proof.
  apply IPC_send_wake_failure.
  - apply wf_demo_state.
  - vm_compute. reflexivity.
  - vm_compute. split; [discriminate | reflexivity].
  - reflexivity.
  - vm_compute. split; [discriminate | reflexivity].
  - vm_compute. discriminate.
  - discriminate.
Defined.

(** ** A full queue *)

(** [IPC_send] does not look at the count: a send to an inbox that holds
    [IPC_MSG_QUEUE_LENGTH] messages is answered as any other, the count
    goes to [IPC_MSG_QUEUE_LENGTH + 1] and the slot at the tail, which
    holds the oldest unread message, is written. *)
Lemma IPC_send_full_queue xTaskNotifyGive st id h aType apData aDataSize :
  wf_state st → handler_of st id = Some h →
  ring_ok (queue h) → queueSize (queue h) = IPC_MSG_QUEUE_LENGTH →
  aDataSize < IPC_MAX_DATA_LENGTH →
  aDataSize <= Z.of_nat (length apData) →
  xTaskNotifyGive (handle h) = pdPASS →
  ∃ st' h' slot,
    IPC_send xTaskNotifyGive st id aType apData aDataSize = Some (E_IPC_SUCCESS, st')
    ∧ handler_of st' id = Some h'
    ∧ queueSize (queue h') = IPC_MSG_QUEUE_LENGTH + 1
    ∧ queueTail (queue h) = queueHead (queue h)
    ∧ array_get (msgQueue (queue h)) (queueHead (queue h)) = Some slot
    ∧ array_get (msgQueue (queue h')) (queueHead (queue h))
      = Some (stored_msg slot aType apData aDataSize).
Proof.
  intros Hst Hh [_ Hring] Hfull Hn Hd Hpass.
  destruct (handler_of_Some st id h Hst Hh) as (_ & _ & _ & [Hlen _ Ht Hhd Hs]).
  destruct (IPC_send_stores xTaskNotifyGive st id h aType apData aDataSize)
    as (slot & st' & Hslot & Heq & _ & Hh'); [done..|].
  rewrite Hpass in Heq. simpl in Heq.
  assert (queueTail (queue h) = queueHead (queue h)) as Hth.
  { rewrite Hring, Hfull. unfold IPC_MSG_QUEUE_LENGTH in *.
    replace (queueHead (queue h) + 16) with (queueHead (queue h) + 1 * 16) by lia.
    rewrite Z_mod_plus_full. rewrite Z.mod_small; lia. }
  eexists st', _, slot. split; [done|]. split; [done|]. simpl.
  rewrite Hfull. split; [done|]. split; [done|].
  rewrite <- Hth. split; [done|]. apply array_get_set_eq. lia.
Qed.

(** C1 (the code differs): after the registration of task 1, sixteen sends
    succeed and fill the queue (head 0, tail 0, count 16); the seventeenth
    send is not refused: it succeeds as well, the count becomes 17, the
    tail 1, and slot 0, which held the first message, holds the
    seventeenth, which the next receive hands over. *)
Theorem IPC_send_seventeenth :
  (λ '(tr, st), (tr.*2, summary st E_IPC_TASK_ID_1))
    <$> run demo_state E_IPC_TASK_ID_1 (sends 16)
  = Some (replicate 16 E_IPC_SUCCESS, Some (0, 0, 16))
  ∧ (λ '(tr, st), (tr.*2, summary st E_IPC_TASK_ID_1))
      <$> run demo_state E_IPC_TASK_ID_1 (sends 17)
    = Some (replicate 17 E_IPC_SUCCESS, Some (0, 1, 17))
  ∧ receive_byte (after demo_state E_IPC_TASK_ID_1 (sends 16)) E_IPC_TASK_ID_1
    = Some (E_IPC_RECV_MORE, [byte_of 1])
  ∧ receive_byte (after demo_state E_IPC_TASK_ID_1 (sends 17)) E_IPC_TASK_ID_1
    = Some (E_IPC_RECV_MORE, [byte_of 17]).
Proof. vm_compute. done. Qed.

(** ** Counting *)

Lemma tally_cons f ce tr :
  tally f (ce :: tr) = (if f ce then 1 else 0) + tally f tr.
Proof.
  unfold tally. rewrite filter_cons.
  destruct (decide (f ce = true)) as [->|Hf]; simpl; [lia|].
  destruct (f ce); [done | lia].
Qed.

Lemma count_step_range n c :
  0 <= n <= IPC_MSG_QUEUE_LENGTH →
  (stores c = true → n < IPC_MSG_QUEUE_LENGTH) →
  0 <= count_step n c <= IPC_MSG_QUEUE_LENGTH.
Proof.
  intros Hn Hroom. destruct c; simpl in *.
  - destruct (aDataSize <? IPC_MAX_DATA_LENGTH); [specialize (Hroom eq_refl)|]; lia.
  - destruct (Z.eqb_spec n 0); lia.
Qed.

Lemma never_overfills_app n l1 l2 :
  never_overfills n (l1 ++ l2)
  = never_overfills n l1 && never_overfills (foldl count_step n l1) l2.
Proof.
  revert n. induction l1 as [|c l1 IH]; intros n; simpl; [done|].
  rewrite IH. by rewrite andb_assoc.
Qed.

(** One call on a registered inbox that is not sent to while full: the
    count moves as [count_step] says. *)
Lemma call_counts st id h c :
  wf_state st → handler_of st id = Some h →
  0 <= queueSize (queue h) <= IPC_MSG_QUEUE_LENGTH →
  payload_ok c = true →
  (stores c = true → queueSize (queue h) < IPC_MSG_QUEUE_LENGTH) →
  ∃ e st' h',
    call st id c = Some (e, st')
    ∧ wf_state st' ∧ handler_of st' id = Some h'
    ∧ queueSize (queue h') = count_step (queueSize (queue h)) c
    ∧ queueSize (queue h')
      = queueSize (queue h) + (if stored_send (c, e) then 1 else 0)
        - (if successful_receive (c, e) then 1 else 0)
    ∧ (successful_send (c, e) = true → stored_send (c, e) = true).
Proof.
  intros Hst Hh Hsz Hok Hroom.
  destruct c as [notify aType apData aDataSize | apBuf]; simpl in *.
  - unfold stored_send. simpl.
    destruct (Z.ltb_spec aDataSize IPC_MAX_DATA_LENGTH) as [Hn|Hn].
    + specialize (Hroom eq_refl).
      destruct (IPC_send_stores notify st id h aType apData aDataSize)
        as (slot & st' & _ & Heq & Hwf & Hh'); [done | done | done | |].
      { apply orb_true_iff in Hok as [Hbig|Hd]; lia. }
      eexists _, st', _. split; [exact Heq|]. split; [done|]. split; [exact Hh'|].
      simpl. unfold IPC_MSG_QUEUE_LENGTH in *.
      rewrite to_uint8_small by lia. split_and!; done || lia.
    + exists E_IPC_ERR_SEND_FAIL, st, h. unfold IPC_send.
      destruct (Z.leb_spec IPC_MAX_DATA_LENGTH aDataSize); [|lia].
      split_and!; done || lia.
  - destruct (Z.eqb_spec (queueSize (queue h)) 0) as [Hz|Hnz].
    + rewrite (IPC_receive_empty st id h) by done. simpl.
      exists E_IPC_ERR_RECV_FAIL, st, h. simpl. split_and!; done || lia.
    + destruct (IPC_receive_registered st id h apBuf)
        as (m & q' & st' & Hdeq & Heq & _ & Hwf & Hh' & _); [done | done | lia |].
      destruct (handler_of_Some st id h Hst Hh) as (_ & _ & _ & Hq).
      destruct (dequeue_spec (queue h) Hq) as (m' & _ & Hdeq').
      rewrite Hdeq' in Hdeq. simplify_eq.
      rewrite Heq. simpl. eexists _, st', _.
      split; [done|]. split; [done|]. split; [exact Hh'|]. simpl.
      unfold IPC_MSG_QUEUE_LENGTH in *. rewrite to_uint8_small by lia.
      split; [done|]. split; [|done].
      destruct (0 <? queueSize (queue h) - 1); simpl; lia.
Qed.

(** A sequence of calls on a registered inbox that is never sent to while
    full: it runs to its end, and the count is the number of sends that
    stored a message less the number of successful receives. *)
Lemma run_counts st id h calls :
  wf_state st → handler_of st id = Some h →
  0 <= queueSize (queue h) <= IPC_MSG_QUEUE_LENGTH →
  forallb payload_ok calls = true →
  never_overfills (queueSize (queue h)) calls = true →
  ∃ tr st' h',
    run st id calls = Some (tr, st')
    ∧ wf_state st' ∧ handler_of st' id = Some h'
    ∧ queueSize (queue h') = foldl count_step (queueSize (queue h)) calls
    ∧ queueSize (queue h')
      = queueSize (queue h) + tally stored_send tr - tally successful_receive tr
    ∧ 0 <= queueSize (queue h') <= IPC_MSG_QUEUE_LENGTH.
Proof.
  revert st h. induction calls as [|c cs IH]; intros st h Hst Hh Hsz Hok Hfit.
  - exists [], st, h. simpl. unfold tally. simpl. split_and!; done || lia.
  - simpl in Hok, Hfit.
    apply andb_true_iff in Hok as [Hokc Hok].
    apply andb_true_iff in Hfit as [Hroom Hfit].
    assert (stores c = true → queueSize (queue h) < IPC_MSG_QUEUE_LENGTH) as Hroom'.
    { intros Hs. rewrite Hs in Hroom. by apply Z.ltb_lt. }
    destruct (call_counts st id h c Hst Hh Hsz Hokc Hroom')
      as (e & st1 & h1 & Hcall & Hst1 & Hh1 & Hstep & Hdelta & _).
    pose proof (count_step_range _ c Hsz Hroom') as Hsz1.
    rewrite <- Hstep in Hsz1, Hfit.
    destruct (IH st1 h1 Hst1 Hh1 Hsz1 Hok Hfit)
      as (tr & st' & h' & Hrun & Hst' & Hh' & Hfold & Hcount & Hrange).
    exists ((c, e) :: tr), st', h'. simpl. rewrite Hcall. simpl. rewrite Hrun. simpl.
    split; [done|]. split; [done|]. split; [done|].
    split; [by rewrite <- Hstep|]. split; [|done].
    rewrite !tally_cons. lia.
Qed.

(** C3 (amended): a sequence of sends and receives on a registered inbox
    that starts empty and is never sent to while it holds
    [IPC_MSG_QUEUE_LENGTH] messages.  After every prefix of the sequence
    the count is the number of sends that stored their message (all that
    passed the size check, whether the notification was delivered or not)
    minus the number of successful receives, and it lies between 0 and
    [IPC_MSG_QUEUE_LENGTH]; the next call moves it by +1 if it is a send
    that stores, a successful send among them, by -1 if it is a successful
    receive, and not at all otherwise. *)
Theorem count_law st id h calls (k : nat) :
  wf_state st → handler_of st id = Some h → queueSize (queue h) = 0 →
  forallb payload_ok calls = true →
  never_overfills 0 calls = true →
  ∃ tr st' h',
    run st id (take k calls) = Some (tr, st')
    ∧ handler_of st' id = Some h'
    ∧ queueSize (queue h') = tally stored_send tr - tally successful_receive tr
    ∧ 0 <= queueSize (queue h') <= IPC_MSG_QUEUE_LENGTH
    ∧ ∀ c, calls !! k = Some c →
        ∃ e st'' h'',
          call st' id c = Some (e, st'')
          ∧ handler_of st'' id = Some h''
          ∧ queueSize (queue h'')
            = queueSize (queue h') + (if stored_send (c, e) then 1 else 0)
              - (if successful_receive (c, e) then 1 else 0)
          ∧ (successful_send (c, e) = true →
             queueSize (queue h'') = queueSize (queue h') + 1)
          ∧ (successful_receive (c, e) = true →
             queueSize (queue h'') = queueSize (queue h') - 1).
Proof.
  intros Hst Hh Hz Hok Hfit.
  rewrite <- (take_drop k calls) in Hok, Hfit.
  rewrite forallb_app in Hok. apply andb_true_iff in Hok as [Hok1 Hok2].
  rewrite never_overfills_app in Hfit. apply andb_true_iff in Hfit as [Hfit1 Hfit2].
  rewrite <- Hz in Hfit1, Hfit2.
  destruct (run_counts st id h (take k calls) Hst Hh) as
    (tr & st' & h' & Hrun & Hst' & Hh' & Hfold & Hcount & Hrange);
    [unfold IPC_MSG_QUEUE_LENGTH; lia | done | done |].
  exists tr, st', h'. split; [done|]. split; [done|]. split; [lia|]. split; [done|].
  intros c Hc. rewrite (drop_S _ _ _ Hc) in Hok2, Hfit2. simpl in Hok2, Hfit2.
  apply andb_true_iff in Hok2 as [Hokc _].
  apply andb_true_iff in Hfit2 as [Hroom _].
  rewrite <- Hfold in Hroom.
  assert (stores c = true → queueSize (queue h') < IPC_MSG_QUEUE_LENGTH) as Hroom'.
  { intros Hs. rewrite Hs in Hroom. by apply Z.ltb_lt. }
  destruct (call_counts st' id h' c Hst' Hh' Hrange Hokc Hroom')
    as (e & st'' & h'' & Hcall & _ & Hh'' & _ & Hdelta & Hsucc).
  exists e, st'', h''. split; [done|]. split; [done|]. split; [done|].
  split.
  - intros Hs. rewrite (Hsucc Hs) in Hdelta.
    destruct c; [|done]. simpl in Hdelta. lia.
  - intros Hr. rewrite Hr in Hdelta.
    destruct c; [done|]. unfold stored_send in Hdelta. simpl in Hdelta. lia.
Qed.

Lemma count_law_witness :
  ∃ tr st' h',
    run demo_state E_IPC_TASK_ID_1
      (take 3 [Send notify_fail E_IPC_MSG_TYPE_1 [x68; x69] 2;
               Send notify_pass E_IPC_MSG_TYPE_2 [x79; x6f] 2;
               Receive zero_msg; Receive zero_msg; Receive zero_msg])
    = Some (tr, st')
    ∧ handler_of st' E_IPC_TASK_ID_1 = Some h'
    ∧ queueSize (queue h') = tally stored_send tr - tally successful_receive tr
    ∧ 0 <= queueSize (queue h') <= IPC_MSG_QUEUE_LENGTH
    ∧ ∀ c, [Send notify_fail E_IPC_MSG_TYPE_1 [x68; x69] 2;
            Send notify_pass E_IPC_MSG_TYPE_2 [x79; x6f] 2;
            Receive zero_msg; Receive zero_msg; Receive zero_msg] !! 3%nat = Some c →
        ∃ e st'' h'',
          call st' E_IPC_TASK_ID_1 c = Some (e, st'')
          ∧ handler_of st'' E_IPC_TASK_ID_1 = Some h''
          ∧ queueSize (queue h'')
            = queueSize (queue h') + (if stored_send (c, e) then 1 else 0)
              - (if successful_receive (c, e) then 1 else 0)
          ∧ (successful_send (c, e) = true →
             queueSize (queue h'') = queueSize (queue h') + 1)
          ∧ (successful_receive (c, e) = true →
             queueSize (queue h'') = queueSize (queue h') - 1).
Proof.
  apply (count_law demo_state E_IPC_TASK_ID_1 demo_handler).
  - apply wf_demo_state.
  - vm_compute. reflexivity.
  - reflexivity.
  - reflexivity.
  - reflexivity.
Defined.

(** C3 as stated fails: one send whose notification is not delivered is
    answered with [E_IPC_ERR_SEND_FAIL], so the sequence has no successful
    send and no successful receive, and the count is 1. *)
Lemma count_law_wake_failure :
  (λ '(tr, st), (tr.*2, tally successful_send tr, tally successful_receive tr,
                 summary st E_IPC_TASK_ID_1))
    <$> run demo_state E_IPC_TASK_ID_1
          [Send notify_fail E_IPC_MSG_TYPE_1 [x68; x69] 2]
  = Some ([E_IPC_ERR_SEND_FAIL], 0, 0, Some (0, 1, 1))
  ∧ 1 ≠ 0 - 0.
Proof. split; [vm_compute; reflexivity | discriminate]. Qed.

(** Two sends to an inbox that holds fifteen messages both succeed; the
    second one overwrites slot 0, so the next receive hands over B, sent
    last, and then the second oldest message: the oldest message is lost
    and A is not received before B. *)
Lemma FIFO_lost_on_full_queue :
  ∃ m1 m2,
    two_sends_two_receives (after demo_state E_IPC_TASK_ID_1 (sends 15)) E_IPC_TASK_ID_1
      (E_IPC_MSG_TYPE_2, [x41], 1) (E_IPC_MSG_TYPE_2, [x42], 1)
    = Some (E_IPC_SUCCESS, E_IPC_SUCCESS, (E_IPC_RECV_MORE, m1), (E_IPC_RECV_MORE, m2))
    ∧ carries_sent m1 (E_IPC_MSG_TYPE_2, [x42], 1)
    ∧ carries_sent m2 (E_IPC_MSG_TYPE_1, [byte_of 2], 1).
Proof.
  eexists _, _. split; [vm_compute; reflexivity|].
  split; vm_compute; done.
Qed.

(** * Further properties of IPCHandler.c *)

(** ** The table of handlers *)

Lemma IPC_getHandlerIdx_registered st taskID :
  IPC_getHandlerIdx st taskID = IPC_getHandlerIdx_loop (registered st) 0 taskID.
Proof.
  unfold IPC_getHandlerIdx, registered.
  destruct (Z.ltb_spec 0 (IPC_u8HandlerCnt st)); [done|].
  by replace (Z.to_nat (IPC_u8HandlerCnt st)) with 0%nat by lia.
Qed.

Lemma registered_length st :
  0 <= IPC_u8HandlerCnt st <= Z.of_nat (length (IPC_arHandler st)) →
  Z.of_nat (length (registered st)) = IPC_u8HandlerCnt st.
Proof. intros Hcnt. unfold registered. rewrite length_take. lia. Qed.

(** The answer of [IPC_getHandlerIdx] in terms of the registered handlers. *)
Lemma IPC_getHandlerIdx_first st taskID :
  0 <= IPC_u8HandlerCnt st <= Z.of_nat (length (IPC_arHandler st)) →
  (IPC_getHandlerIdx st taskID = -1 ↔ taskID ∉ recvId <$> registered st)
  ∧ (IPC_getHandlerIdx st taskID ≠ -1 →
     0 <= IPC_getHandlerIdx st taskID < IPC_u8HandlerCnt st
     ∧ (recvId <$> registered st) !! Z.to_nat (IPC_getHandlerIdx st taskID)
       = Some taskID
     ∧ ∀ j, (j < Z.to_nat (IPC_getHandlerIdx st taskID))%nat →
            (recvId <$> registered st) !! j ≠ Some taskID).
Proof.
  intros Hcnt. pose proof (registered_length st Hcnt) as Hlen.
  rewrite IPC_getHandlerIdx_registered.
  destruct (IPC_getHandlerIdx_loop_spec (registered st) 0 taskID)
    as [[-> Hall] | (k & h & -> & Hk & Hid & Hall)]; [lia|..].
  - split; [|done]. split; [|done]. intros _ Hin.
    apply list_elem_of_fmap in Hin as (h & -> & Hin).
    by apply (proj1 (Forall_forall _ _) Hall h).
  - split.
    + split; [lia|]. intros Hnot. exfalso. apply Hnot.
      apply list_elem_of_fmap. exists h. split; [done|].
      by eapply list_elem_of_lookup_2.
    + intros _. replace (Z.to_nat (0 + Z.of_nat k)) with k by lia.
      pose proof (lookup_lt_Some _ _ _ Hk). split; [lia|].
      split; [by rewrite list_lookup_fmap, Hk; simpl; rewrite Hid|].
      intros j Hj Hl. rewrite list_lookup_fmap in Hl.
      destruct (registered st !! j) as [h'|] eqn:Hh'; [|done].
      simpl in Hl. simplify_eq.
      assert (take k (registered st) !! j = Some h') as Ht
        by (by rewrite lookup_take_lt).
      by apply (Forall_lookup_1 _ _ _ _ Hall Ht).
Qed.

(** X1: [IPC_getHandlerIdx] answers [-1] exactly when no registered
    handler has the task ID; otherwise it answers the index, below the
    number of handlers, of the first registered handler with that ID. *)
Theorem IPC_getHandlerIdx_lookup st taskID :
  0 <= IPC_u8HandlerCnt st <= Z.of_nat (length (IPC_arHandler st)) →
  (IPC_getHandlerIdx st taskID = -1 ↔ taskID ∉ recvId <$> registered st)
  ∧ (IPC_getHandlerIdx st taskID ≠ -1 →
     0 <= IPC_getHandlerIdx st taskID < IPC_u8HandlerCnt st
     ∧ (recvId <$> registered st) !! Z.to_nat (IPC_getHandlerIdx st taskID)
       = Some taskID
     ∧ ∀ j, (j < Z.to_nat (IPC_getHandlerIdx st taskID))%nat →
            (recvId <$> registered st) !! j ≠ Some taskID).
Proof. apply IPC_getHandlerIdx_first. Qed.

Lemma IPC_getHandlerIdx_lookup_witness :
  (IPC_getHandlerIdx crowded_state E_IPC_TASK_ID_2 = -1
   ↔ E_IPC_TASK_ID_2 ∉ recvId <$> registered crowded_state)
  ∧ (IPC_getHandlerIdx crowded_state E_IPC_TASK_ID_2 ≠ -1 →
     0 <= IPC_getHandlerIdx crowded_state E_IPC_TASK_ID_2 < IPC_u8HandlerCnt crowded_state
     ∧ (recvId <$> registered crowded_state)
         !! Z.to_nat (IPC_getHandlerIdx crowded_state E_IPC_TASK_ID_2) = Some E_IPC_TASK_ID_2
     ∧ ∀ j, (j < Z.to_nat (IPC_getHandlerIdx crowded_state E_IPC_TASK_ID_2))%nat →
            (recvId <$> registered crowded_state) !! j ≠ Some E_IPC_TASK_ID_2).
Proof.
  apply IPC_getHandlerIdx_lookup. vm_compute. split; discriminate.
Defined.

(** What a successful registration adds to the table. *)
Lemma IPC_createHandler_registered st aTaskID aHandle st' :
  wf_state st →
  IPC_createHandler st aTaskID aHandle = Some (E_IPC_SUCCESS, st') →
  ∃ slot,
    registered st'
    = registered st
      ++ [ {| recvId := aTaskID; handle := aHandle;
              queue := {| msgQueue := msgQueue (queue slot);
                          queueTail := 0; queueHead := 0; queueSize := 0 |} |} ]
    ∧ aHandle ≠ NULL
    ∧ IPC_u8HandlerCnt st < IPC_HANDLER_CNT_MAX
    ∧ IPC_u8HandlerCnt st' = IPC_u8HandlerCnt st + 1
    ∧ aTaskID ∉ recvId <$> registered st.
Proof.
  intros Hst Hc.
  destruct (IPC_createHandler_cases st aTaskID aHandle Hst) as (slot & Hslot & Heq).
  rewrite Heq in Hc. clear Heq.
  destruct (Z.eqb_spec aHandle NULL); [done|].
  destruct (Z.eqb_spec (IPC_u8HandlerCnt st) IPC_HANDLER_CNT_MAX); [done|].
  destruct (Z.eqb_spec (IPC_getHandlerIdx st aTaskID) (-1)) as [Hnone|]; [|done].
  simpl in Hc. simplify_eq. destruct Hst as [Hlen Hqs Hcnt].
  exists slot. split_and!; try done; try lia.
  - unfold registered. simpl.
    replace (Z.to_nat (IPC_u8HandlerCnt st + 1))
      with (S (Z.to_nat (IPC_u8HandlerCnt st))) by lia.
    erewrite take_S_r by (apply list_lookup_insert_eq; lia).
    by rewrite take_insert_ge by lia.
  - apply (IPC_getHandlerIdx_first st aTaskID); [lia | done].
Qed.

(** The result of [IPC_createHandler] on a well-formed state. *)
Lemma IPC_createHandler_result st aTaskID aHandle :
  wf_state st →
  ∃ e st',
    IPC_createHandler st aTaskID aHandle = Some (e, st')
    ∧ wf_state st'
    ∧ (e = E_IPC_SUCCESS
       ↔ aHandle ≠ NULL ∧ IPC_u8HandlerCnt st < IPC_HANDLER_CNT_MAX
         ∧ aTaskID ∉ recvId <$> registered st)
    ∧ (e = E_IPC_SUCCESS →
       IPC_u8HandlerCnt st' = IPC_u8HandlerCnt st + 1
       ∧ ∃ h, registered st' = registered st ++ [h]
              ∧ recvId h = aTaskID ∧ handle h = aHandle
              ∧ queueSize (queue h) = 0
              ∧ queueHead (queue h) = 0 ∧ queueTail (queue h) = 0)
    ∧ (e ≠ E_IPC_SUCCESS → st' = st).
Proof.
  intros Hst.
  destruct (IPC_createHandler_cases st aTaskID aHandle Hst) as (slot & Hslot & Heq).
  pose proof Hst as [Hlen Hqs Hcnt].
  pose proof (IPC_getHandlerIdx_first st aTaskID ltac:(lia)) as [Hnone _].
  destruct (IPC_createHandler st aTaskID aHandle) as [[e st']|] eqn:Hc.
  2:{ by repeat destruct (_ : bool). }
  exists e, st'. split; [done|].
  split; [by eapply IPC_createHandler_wf|].
  destruct (decide (e = E_IPC_SUCCESS)) as [->|Hne].
  - destruct (IPC_createHandler_registered _ _ _ _ Hst Hc)
      as (slot' & Hreg & Hh & Hroom & Hcnt' & Hnew).
    split; [done|]. split; [|done]. intros _. split; [done|].
    eexists. split; [exact Hreg|]. done.
  - split; [|split; [done|]].
    + split; [done|]. intros (Hh & Hroom & Hnew). exfalso.
      destruct (Z.eqb_spec aHandle NULL); [done|].
      destruct (Z.eqb_spec (IPC_u8HandlerCnt st) IPC_HANDLER_CNT_MAX); [lia|].
      apply Hnone in Hnew. rewrite Hnew in Heq. simpl in Heq. by simplify_eq.
    + intros _. destruct (aHandle =? NULL); [by simplify_eq|].
      destruct (IPC_u8HandlerCnt st =? IPC_HANDLER_CNT_MAX); [by simplify_eq|].
      destruct (negb _); by simplify_eq.
Qed.

(** X2: on a well-formed state [IPC_createHandler] always has a defined
    result.  It succeeds exactly when the handle is not null, the table has
    a free entry and the task ID is not registered; it then appends one
    handler with that ID, that handle and an empty queue, and keeps all
    registered handlers as they were.  Otherwise the state is unchanged. *)
Theorem IPC_createHandler_outcome st aTaskID aHandle :
  wf_state st →
  ∃ e st',
    IPC_createHandler st aTaskID aHandle = Some (e, st')
    ∧ wf_state st'
    ∧ (e = E_IPC_SUCCESS
       ↔ aHandle ≠ NULL ∧ IPC_u8HandlerCnt st < IPC_HANDLER_CNT_MAX
         ∧ aTaskID ∉ recvId <$> registered st)
    ∧ (e = E_IPC_SUCCESS →
       IPC_u8HandlerCnt st' = IPC_u8HandlerCnt st + 1
       ∧ ∃ h, registered st' = registered st ++ [h]
              ∧ recvId h = aTaskID ∧ handle h = aHandle
              ∧ queueSize (queue h) = 0
              ∧ queueHead (queue h) = 0 ∧ queueTail (queue h) = 0)
    ∧ (e ≠ E_IPC_SUCCESS → st' = st).
Proof. apply IPC_createHandler_result. Qed.

Lemma IPC_createHandler_outcome_witness :
  ∃ e st',
    IPC_createHandler demo_state E_IPC_TASK_ID_2 4098 = Some (e, st')
    ∧ wf_state st'
    ∧ (e = E_IPC_SUCCESS
       ↔ 4098 ≠ NULL ∧ IPC_u8HandlerCnt demo_state < IPC_HANDLER_CNT_MAX
         ∧ E_IPC_TASK_ID_2 ∉ recvId <$> registered demo_state)
    ∧ (e = E_IPC_SUCCESS →
       IPC_u8HandlerCnt st' = IPC_u8HandlerCnt demo_state + 1
       ∧ ∃ h, registered st' = registered demo_state ++ [h]
              ∧ recvId h = E_IPC_TASK_ID_2 ∧ handle h = 4098
              ∧ queueSize (queue h) = 0
              ∧ queueHead (queue h) = 0 ∧ queueTail (queue h) = 0)
    ∧ (e ≠ E_IPC_SUCCESS → st' = demo_state).
Proof. apply IPC_createHandler_outcome, wf_demo_state. Defined.

(** ** What a send and a receive change *)

Lemma set_queue_registered st id h q' st' :
  wf_state st → handler_of st id = Some h →
  set_queue st (IPC_getHandlerIdx st id) h q' = Some st' →
  IPC_u8HandlerCnt st' = IPC_u8HandlerCnt st
  ∧ ∃ i, registered st !! i = Some h
         ∧ registered st' = <[i := with_queue h q']> (registered st).
Proof.
  intros [Hlen Hqs Hcnt] Hh Hset. unfold handler_of in Hh.
  destruct (Z.eqb_spec (IPC_getHandlerIdx st id) (-1)) as [|Hne]; [done|].
  destruct (IPC_getHandlerIdx_spec st id) as [|(h' & Hi & Hh' & _)]; [lia | done |].
  unfold set_queue in Hset.
  destruct (array_set _ _ _) as [arr'|] eqn:Hs; [|done].
  simpl in Hset. simplify_eq.
  apply array_set_Some in Hs as [_ ->].
  apply array_get_Some in Hh as [_ Hh].
  split; [done|]. exists (Z.to_nat (IPC_getHandlerIdx st id)).
  unfold registered. simpl. split.
  - by rewrite lookup_take_lt by lia.
  - by rewrite take_insert_lt by lia.
Qed.

(** A call of [IPC_send] with a defined result either changes nothing or
    replaces the queue of the receiver by the queue with the message. *)
Lemma IPC_send_effect xTaskNotifyGive st id aType apData aDataSize e st' :
  wf_state st →
  IPC_send xTaskNotifyGive st id aType apData aDataSize = Some (e, st') →
  (IPC_MAX_DATA_LENGTH <= aDataSize ∧ e = E_IPC_ERR_SEND_FAIL ∧ st' = st)
  ∨ (aDataSize < IPC_MAX_DATA_LENGTH ∧
     ∃ h q', handler_of st id = Some h
             ∧ enqueue (queue h) aType apData aDataSize = Some q'
             ∧ set_queue st (IPC_getHandlerIdx st id) h q' = Some st'
             ∧ e = (if xTaskNotifyGive (handle h) =? pdPASS then E_IPC_SUCCESS
                    else E_IPC_ERR_SEND_FAIL)).
Proof.
  intros Hst Hsend.
  destruct (IPC_send_inv _ _ _ _ _ _ _ _ Hst Hsend)
    as [?|(Hn & Hd & h & Hh)]; [by left|]. right. split; [done|].
  destruct (IPC_send_registered xTaskNotifyGive st id h aType apData aDataSize)
    as (q' & st'' & Henq & Heq & Hset & _); [done..|].
  rewrite Heq in Hsend. simplify_eq. by exists h, q'.
Qed.

(** A call of [IPC_receive] either changes nothing or replaces the queue of
    the owner by the queue without its first message. *)
Lemma IPC_receive_effect st id apBuf :
  wf_state st →
  ∃ e st' buf',
    IPC_receive st id apBuf = Some (e, st', buf')
    ∧ ((is_success e = false ∧ st' = st ∧ buf' = apBuf)
       ∨ (is_success e = true ∧
          ∃ h q', handler_of st id = Some h
                  ∧ 0 < queueSize (queue h)
                  ∧ dequeue (queue h) = Some (buf', q')
                  ∧ set_queue st (IPC_getHandlerIdx st id) h q' = Some st')).
Proof.
  intros Hst. destruct (handler_of st id) as [h|] eqn:Hh.
  - destruct (handler_of_Some st id h Hst Hh) as (_ & _ & _ & [_ _ _ _ Hs]).
    destruct (Z.eq_dec (queueSize (queue h)) 0) as [Hz|Hnz].
    + rewrite (IPC_receive_empty st id h) by done.
      eexists _, _, _. split; [done|]. by left.
    + destruct (IPC_receive_registered st id h apBuf)
        as (m & q' & st' & Hdeq & Heq & Hset & _); [done | done | lia |].
      rewrite Heq. eexists _, _, _. split; [done|]. right.
      split; [by destruct (0 <? queueSize q')|].
      exists h, q'. split_and!; done || lia.
  - destruct Hst as [Hlen _ Hcnt].
    unfold IPC_HANDLER_CNT_MAX, E_IPC_TASK_ID_LAST in *.
    apply handler_of_None in Hh; [|lia].
    unfold IPC_receive. rewrite Hh. simpl.
    eexists _, _, _. split; [done|]. by left.
Qed.

(** ** Invariants of the interface *)

Lemma ring_congruent_enqueue q aType apData aDataSize q' :
  wf_queue q → ring_congruent q →
  enqueue q aType apData aDataSize = Some q' → ring_congruent q'.
Proof.
  intros Hq Hring Henq.
  pose proof (enqueue_reads _ _ _ _ _ Henq) as Hd.
  destruct Hq as [Hlen Hmsgs Ht Hh Hs].
  unfold enqueue in Henq.
  destruct (array_get (msgQueue q) (queueTail q)); [|done]. simpl in Henq.
  destruct (copy_data _ _ _ _); [|done]. simpl in Henq.
  destruct (array_set _ _ _); [|done]. simpl in Henq. simplify_eq.
  unfold ring_congruent in *. simpl. rewrite ring_next_mod by done.
  rewrite Hring. unfold to_uint8, IPC_MSG_QUEUE_LENGTH.
  rewrite Zplus_mod_idemp_l.
  rewrite (Zplus_mod (queueHead q) ((queueSize q + 1) mod 256)).
  rewrite (Z.mod_mod_divide _ 256 16) by (by exists 16).
  rewrite <- Zplus_mod. f_equal. lia.
Qed.

Lemma ring_congruent_dequeue q m q' :
  wf_queue q → 0 < queueSize q → ring_congruent q →
  dequeue q = Some (m, q') → ring_congruent q'.
Proof.
  intros Hq Hpos Hring Hdeq. destruct (dequeue_spec q Hq) as (m' & _ & Heq).
  rewrite Heq in Hdeq. simplify_eq. destruct Hq as [Hlen Hmsgs Ht Hh Hs].
  unfold ring_congruent in *. simpl. rewrite to_uint8_small by lia.
  rewrite Hring, Zplus_mod_idemp_l. f_equal. lia.
Qed.

Lemma registry_ok_set_queue st id h q' st' :
  wf_state st → registry_ok st → handler_of st id = Some h →
  ring_congruent q' →
  set_queue st (IPC_getHandlerIdx st id) h q' = Some st' →
  registry_ok st'.
Proof.
  intros Hst [Hnd Hall] Hh Hq' Hset.
  destruct (set_queue_registered _ _ _ _ _ Hst Hh Hset) as (_ & i & Hi & Hreg).
  unfold registry_ok. rewrite Hreg. split.
  - rewrite list_fmap_insert. simpl.
    rewrite list_insert_id; [done|]. by rewrite list_lookup_fmap, Hi.
  - apply Forall_insert; [done|]. simpl. split; [|done].
    by apply (Forall_lookup_1 _ _ _ _ Hall Hi).
Qed.

Lemma api_step_invariant st c st' :
  wf_state st → registry_ok st → api_step st c = Some st' →
  wf_state st' ∧ registry_ok st'.
Proof.
  intros Hst Hok Hstep.
  destruct c as [|aTaskID aHandle|notify aRecv aType apData aDataSize|aRecv apBuf];
    simpl in Hstep.
  - simplify_eq. split; [by apply wf_initIPCHandler|].
    unfold registry_ok, registered. simpl. split; constructor.
  - destruct (IPC_createHandler st aTaskID aHandle) as [[e st1]|] eqn:Hc; [|done].
    simpl in Hstep. simplify_eq.
    split; [by eapply IPC_createHandler_wf|].
    destruct (decide (e = E_IPC_SUCCESS)) as [->|Hne].
    + destruct (IPC_createHandler_registered _ _ _ _ Hst Hc)
        as (slot & Hreg & Hh & _ & _ & Hnew).
      destruct Hok as [Hnd Hall]. unfold registry_ok. rewrite Hreg. split.
      * rewrite fmap_app. simpl. apply NoDup_app. split; [done|].
        split; [|apply NoDup_singleton].
        intros x Hx Hx'. apply list_elem_of_singleton in Hx'. by subst.
      * apply Forall_app. split; [done|]. constructor; [|constructor].
        simpl. split; [done|]. by unfold ring_congruent.
    + destruct (IPC_createHandler_result st aTaskID aHandle Hst)
        as (e' & st'' & Heq & _ & _ & _ & Hsame).
      rewrite Hc in Heq. simplify_eq. by rewrite (Hsame Hne).
  - destruct (IPC_send notify st aRecv aType apData aDataSize)
      as [[e st1]|] eqn:Hsend; [|done].
    simpl in Hstep. simplify_eq. split; [by eapply IPC_send_wf|].
    destruct (IPC_send_effect _ _ _ _ _ _ _ _ Hst Hsend)
      as [(_ & _ & ->)|(_ & h & q' & Hh & Henq & Hset & _)]; [done|].
    eapply registry_ok_set_queue; [done | done | done | | done].
    destruct (handler_of_Some st aRecv h Hst Hh) as (_ & Hget & _ & Hq).
    eapply ring_congruent_enqueue; [done | | done].
    destruct (set_queue_registered _ _ _ _ _ Hst Hh Hset) as (_ & i & Hi & _).
    by apply (Forall_lookup_1 _ _ _ _ (proj2 Hok) Hi).
  - destruct (IPC_receive_effect st aRecv apBuf Hst)
      as (e & st1 & buf' & Heq & Hcases).
    rewrite Heq in Hstep. simpl in Hstep. simplify_eq.
    split; [by eapply IPC_receive_wf|].
    destruct Hcases as [(_ & -> & _)|(_ & h & q' & Hh & Hpos & Hdeq & Hset)]; [done|].
    eapply registry_ok_set_queue; [done | done | done | | done].
    destruct (handler_of_Some st aRecv h Hst Hh) as (_ & Hget & _ & Hq).
    eapply ring_congruent_dequeue; [done | done | | done].
    destruct (set_queue_registered _ _ _ _ _ Hst Hh Hset) as (_ & i & Hi & _).
    by apply (Forall_lookup_1 _ _ _ _ (proj2 Hok) Hi).
Qed.

Lemma api_run_invariant st cs st' :
  wf_state st → registry_ok st → api_run st cs = Some st' →
  wf_state st' ∧ registry_ok st'.
Proof.
  revert st. induction cs as [|c cs IH]; intros st Hst Hok Hrun; simpl in Hrun.
  - by simplify_eq.
  - destruct (api_step st c) as [st1|] eqn:Hstep; [|done]. simpl in Hrun.
    destruct (api_step_invariant _ _ _ Hst Hok Hstep) as [Hst1 Hok1].
    by eapply IH.
Qed.

Lemma registry_ok_init st : registry_ok (IPC_initIPCHandler st).
Proof. unfold registry_ok, registered. simpl. split; constructor. Qed.

Lemma start_state_invariant : wf_state start_state ∧ registry_ok start_state.
Proof.
  split; [apply wf_initIPCHandler, wf_zero_state | apply registry_ok_init].
Qed.

(** X3: in every state that calls of the four functions reach from the
    start, the number of handlers is at most [IPC_HANDLER_CNT_MAX] and the
    head and the tail of every queue of the table index one of its
    [IPC_MSG_QUEUE_LENGTH] slots, also after sends to a full queue. *)
Theorem reachable_within_bounds cs st :
  api_run start_state cs = Some st →
  0 <= IPC_u8HandlerCnt st <= IPC_HANDLER_CNT_MAX
  ∧ Z.of_nat (length (IPC_arHandler st)) = IPC_HANDLER_CNT_MAX
  ∧ Forall (λ h, Z.of_nat (length (msgQueue (queue h))) = IPC_MSG_QUEUE_LENGTH
                 ∧ 0 <= queueHead (queue h) < IPC_MSG_QUEUE_LENGTH
                 ∧ 0 <= queueTail (queue h) < IPC_MSG_QUEUE_LENGTH)
      (IPC_arHandler st).
Proof.
  intros Hrun. destruct start_state_invariant as [Hst Hok].
  destruct (api_run_invariant _ _ _ Hst Hok Hrun) as [[Hlen Hqs Hcnt] _].
  split; [done|]. split; [done|].
  eapply Forall_impl; [exact Hqs|]. by intros h [? _ ? ? _].
Qed.


(** X5: in every state reached from the start, the tail of every
    registered queue is [queueSize] slots after its head modulo
    [IPC_MSG_QUEUE_LENGTH]; this holds also after the count has passed
    the number of slots or has wrapped around at 256. *)
Theorem reachable_ring_congruent cs st :
  api_run start_state cs = Some st →
  Forall (λ h, queueTail (queue h)
               = (queueHead (queue h) + queueSize (queue h))
                 mod IPC_MSG_QUEUE_LENGTH)
    (registered st).
Proof.
  intros Hrun. destruct start_state_invariant as [Hst Hok].
  destruct (api_run_invariant _ _ _ Hst Hok Hrun) as [_ [_ Hall]].
  eapply Forall_impl; [exact Hall|]. by intros h [_ ?].
Qed.

(** X6: in every state reached from the start, [IPC_receive] and
    [IPC_createHandler] stay inside the arrays for every argument, and so
    does [IPC_send] to a registered task when the caller owns the
    [aDataSize] bytes it passes. *)
Theorem reachable_calls_defined cs st :
  api_run start_state cs = Some st →
  (∀ aRecv apBuf, is_Some (IPC_receive st aRecv apBuf))
  ∧ (∀ aTaskID aHandle, is_Some (IPC_createHandler st aTaskID aHandle))
  ∧ (∀ xTaskNotifyGive aRecv aType apData aDataSize,
       aRecv ∈ recvId <$> registered st →
       aDataSize <= Z.of_nat (length apData) →
       is_Some (IPC_send xTaskNotifyGive st aRecv aType apData aDataSize)).
Proof.
  intros Hrun. destruct start_state_invariant as [Hst0 Hok0].
  destruct (api_run_invariant _ _ _ Hst0 Hok0 Hrun) as [Hst _].
  split; [|split].
  - intros aRecv apBuf.
    destruct (IPC_receive_effect st aRecv apBuf Hst) as (e & st' & buf' & -> & _).
    by eexists.
  - intros aTaskID aHandle.
    destruct (IPC_createHandler_result st aTaskID aHandle Hst) as (e & st' & -> & _).
    by eexists.
  - intros notify aRecv aType apData aDataSize Hin Hd.
    destruct (Z.leb_spec IPC_MAX_DATA_LENGTH aDataSize) as [Hbig|Hn].
    + unfold IPC_send.
      destruct (Z.leb_spec IPC_MAX_DATA_LENGTH aDataSize); [by eexists | lia].
    + pose proof Hst as [Hlen _ Hcnt].
      unfold IPC_HANDLER_CNT_MAX, E_IPC_TASK_ID_LAST in *.
      destruct (handler_of st aRecv) as [h|] eqn:Hh.
      * destruct (IPC_send_registered notify st aRecv h aType apData aDataSize)
          as (q' & st' & _ & -> & _); [done..|]. by eexists.
      * apply handler_of_None in Hh; [|lia].
        apply (IPC_getHandlerIdx_first st aRecv) in Hh; [done | lia].
Qed.

Lemma reachable_within_bounds_witness :
  0 <= IPC_u8HandlerCnt demo_state <= IPC_HANDLER_CNT_MAX
  ∧ Z.of_nat (length (IPC_arHandler demo_state)) = IPC_HANDLER_CNT_MAX
  ∧ Forall (λ h, Z.of_nat (length (msgQueue (queue h))) = IPC_MSG_QUEUE_LENGTH
                 ∧ 0 <= queueHead (queue h) < IPC_MSG_QUEUE_LENGTH
                 ∧ 0 <= queueTail (queue h) < IPC_MSG_QUEUE_LENGTH)
      (IPC_arHandler demo_state).
Proof.
  apply (reachable_within_bounds
           [ApiCreate E_IPC_TASK_ID_1 (4096 + E_IPC_TASK_ID_1)]).
  reflexivity.
Defined.


Lemma reachable_ring_congruent_witness :
  Forall (λ h, queueTail (queue h)
               = (queueHead (queue h) + queueSize (queue h))
                 mod IPC_MSG_QUEUE_LENGTH)
    (registered (api_after session)).
Proof. apply (reachable_ring_congruent session). reflexivity. Defined.

Lemma reachable_calls_defined_witness :
  (∀ aRecv apBuf, is_Some (IPC_receive (api_after session) aRecv apBuf))
  ∧ (∀ aTaskID aHandle,
       is_Some (IPC_createHandler (api_after session) aTaskID aHandle))
  ∧ (∀ xTaskNotifyGive aRecv aType apData aDataSize,
       aRecv ∈ recvId <$> registered (api_after session) →
       aDataSize <= Z.of_nat (length apData) →
       is_Some (IPC_send xTaskNotifyGive (api_after session) aRecv aType apData
                  aDataSize)).
Proof. apply (reachable_calls_defined session). reflexivity. Defined.

(** ** Isolation of the inboxes *)

(** X7: a call of [IPC_send] with a defined result leaves the number of
    handlers, every lookup and the handler of every other task as they
    were, and keeps the task ID and the handle of the receiver's handler:
    only the queue of the receiver can change. *)
Theorem IPC_send_isolation xTaskNotifyGive st aRecv aType apData aDataSize e st' :
  wf_state st →
  IPC_send xTaskNotifyGive st aRecv aType apData aDataSize = Some (e, st') →
  IPC_u8HandlerCnt st' = IPC_u8HandlerCnt st
  ∧ (∀ id, IPC_getHandlerIdx st' id = IPC_getHandlerIdx st id)
  ∧ (∀ id, id ≠ aRecv → handler_of st' id = handler_of st id)
  ∧ (∀ h, handler_of st aRecv = Some h →
          ∃ q', handler_of st' aRecv = Some (with_queue h q')).
Proof.
  intros Hst Hsend.
  destruct (IPC_send_effect _ _ _ _ _ _ _ _ Hst Hsend)
    as [(_ & _ & ->)|(Hn & h & q' & Hh & Henq & Hset & _)].
  - split_and!; try done. intros h Hh. exists (queue h). rewrite Hh.
    by destruct h.
  - destruct (handler_of_Some st aRecv h Hst Hh) as (_ & _ & _ & Hq).
    pose proof (enqueue_wf _ _ _ _ _ Hq Hn (enqueue_reads _ _ _ _ _ Henq) Henq) as Hq'.
    destruct (set_queue_spec st aRecv h q' Hst Hh Hq')
      as (st'' & Hset' & _ & Hcnt & Hidx & Hh' & Hoth).
    assert (st'' = st') as -> by congruence.
    split_and!; try done. intros h0 Hh0. exists q'. congruence.
Qed.

Lemma IPC_send_isolation_witness :
  IPC_u8HandlerCnt
    (after demo_state E_IPC_TASK_ID_1
       [Send notify_pass E_IPC_MSG_TYPE_1 [x68; x69] 2])
  = IPC_u8HandlerCnt demo_state
  ∧ (∀ id, IPC_getHandlerIdx
             (after demo_state E_IPC_TASK_ID_1
                [Send notify_pass E_IPC_MSG_TYPE_1 [x68; x69] 2]) id
           = IPC_getHandlerIdx demo_state id)
  ∧ (∀ id, id ≠ E_IPC_TASK_ID_1 →
           handler_of
             (after demo_state E_IPC_TASK_ID_1
                [Send notify_pass E_IPC_MSG_TYPE_1 [x68; x69] 2]) id
           = handler_of demo_state id)
  ∧ (∀ h, handler_of demo_state E_IPC_TASK_ID_1 = Some h →
          ∃ q', handler_of
                  (after demo_state E_IPC_TASK_ID_1
                     [Send notify_pass E_IPC_MSG_TYPE_1 [x68; x69] 2])
                  E_IPC_TASK_ID_1
                = Some (with_queue h q')).
Proof.
  apply (IPC_send_isolation notify_pass demo_state E_IPC_TASK_ID_1 E_IPC_MSG_TYPE_1
           [x68; x69] 2 E_IPC_SUCCESS).
  - apply wf_demo_state.
  - reflexivity.
Defined.

(** X8: on a well-formed state [IPC_receive] has a defined result for
    every task ID; it leaves the number of handlers, every lookup and the
    handler of every other task as they were, and keeps the task ID and
    the handle of the owner's handler. *)
Theorem IPC_receive_isolation st aRecv apBuf :
  wf_state st →
  ∃ e st' buf',
    IPC_receive st aRecv apBuf = Some (e, st', buf')
    ∧ IPC_u8HandlerCnt st' = IPC_u8HandlerCnt st
    ∧ (∀ id, IPC_getHandlerIdx st' id = IPC_getHandlerIdx st id)
    ∧ (∀ id, id ≠ aRecv → handler_of st' id = handler_of st id)
    ∧ (∀ h, handler_of st aRecv = Some h →
            ∃ q', handler_of st' aRecv = Some (with_queue h q')).
Proof.
  intros Hst.
  destruct (IPC_receive_effect st aRecv apBuf Hst)
    as (e & st' & buf' & Heq & Hcases).
  exists e, st', buf'. split; [done|].
  destruct Hcases as [(_ & -> & _)|(_ & h & q' & Hh & Hpos & Hdeq & Hset)].
  - split_and!; try done. intros h Hh. exists (queue h). rewrite Hh.
    by destruct h.
  - destruct (handler_of_Some st aRecv h Hst Hh) as (_ & _ & _ & Hq).
    pose proof (dequeue_wf _ _ _ Hq Hdeq) as Hq'.
    destruct (set_queue_spec st aRecv h q' Hst Hh Hq')
      as (st'' & Hset' & _ & Hcnt & Hidx & Hh' & Hoth).
    assert (st'' = st') as -> by congruence.
    split_and!; try done. intros h0 Hh0. exists q'. congruence.
Qed.

Lemma IPC_receive_isolation_witness :
  ∃ e st' buf',
    IPC_receive demo_state E_IPC_TASK_ID_1 zero_msg = Some (e, st', buf')
    ∧ IPC_u8HandlerCnt st' = IPC_u8HandlerCnt demo_state
    ∧ (∀ id, IPC_getHandlerIdx st' id = IPC_getHandlerIdx demo_state id)
    ∧ (∀ id, id ≠ E_IPC_TASK_ID_1 → handler_of st' id = handler_of demo_state id)
    ∧ (∀ h, handler_of demo_state E_IPC_TASK_ID_1 = Some h →
            ∃ q', handler_of st' E_IPC_TASK_ID_1 = Some (with_queue h q')).
Proof. apply IPC_receive_isolation, wf_demo_state. Defined.

(** ** Round trips *)

(** X9: a send to an empty inbox followed by a receive.  Whatever
    [xTaskNotifyGive] answers, the receive answers [E_IPC_SUCCESS] and hands
    over the slot as the send wrote it: the type, the size converted to
    [uint32_t], the first [aDataSize] bytes of the payload and, behind them,
    the bytes that the slot held before; the inbox is empty again, with head
    and tail one slot further. *)
Theorem send_receive_round_trip xTaskNotifyGive st id h aType apData aDataSize apBuf :
  wf_state st → handler_of st id = Some h →
  queueSize (queue h) = 0 → queueTail (queue h) = queueHead (queue h) →
  aDataSize < IPC_MAX_DATA_LENGTH →
  aDataSize <= Z.of_nat (length apData) →
  ∃ slot e st1 m st2 h2,
    array_get (msgQueue (queue h)) (queueTail (queue h)) = Some slot
    ∧ IPC_send xTaskNotifyGive st id aType apData aDataSize = Some (e, st1)
    ∧ IPC_receive st1 id apBuf = Some (E_IPC_SUCCESS, st2, m)
    ∧ eIPC_MsgType m = aType
    ∧ u32DataLen m = to_uint32 aDataSize
    ∧ u8Data m = take (Z.to_nat aDataSize) apData
                 ++ drop (Z.to_nat aDataSize) (u8Data slot)
    ∧ handler_of st2 id = Some h2
    ∧ queueSize (queue h2) = 0
    ∧ queueHead (queue h2) = (queueHead (queue h) + 1) mod IPC_MSG_QUEUE_LENGTH
    ∧ queueTail (queue h2) = queueHead (queue h2).
Proof.
  intros Hst Hh Hz Hth Hn Hd.
  destruct (handler_of_Some st id h Hst Hh) as (_ & _ & _ & [Hlen _ Ht Hhd _]).
  destruct (IPC_send_stores xTaskNotifyGive st id h aType apData aDataSize)
    as (slot & st1 & Hslot & Hsend & Hst1 & Hh1); [done..|].
  set (h1 := with_queue h _) in Hh1.
  assert (queueSize (queue h1) = 1) as Hsz1 by (simpl; by rewrite Hz).
  destruct (IPC_receive_registered st1 id h1 apBuf)
    as (m & q2 & st2 & Hdeq & Hrecv & _ & _ & Hh2 & _); [done | done | lia |].
  destruct (handler_of_Some st1 id h1 Hst1 Hh1) as (_ & _ & _ & Hq1).
  destruct (dequeue_spec (queue h1) Hq1) as (m' & Hm' & Hdeq').
  rewrite Hdeq' in Hdeq. simplify_eq.
  simpl in Hm'. rewrite Hth in Hm'.
  rewrite array_get_set_eq in Hm' by lia. simplify_eq.
  simpl in Hrecv. rewrite Hz in Hrecv. simpl in Hrecv.
  eexists slot, _, st1, _, st2, _.
  split; [done|]. split; [exact Hsend|]. split; [exact Hrecv|].
  split; [done|]. split; [done|]. split; [done|].
  split; [exact Hh2|]. simpl. rewrite Hz, Hth. done.
Qed.

Lemma send_receive_round_trip_witness :
  ∃ slot e st1 m st2 h2,
    array_get (msgQueue (queue demo_handler)) (queueTail (queue demo_handler))
    = Some slot
    ∧ IPC_send notify_fail demo_state E_IPC_TASK_ID_1 E_IPC_MSG_TYPE_2 [x68; x69] 2
      = Some (e, st1)
    ∧ IPC_receive st1 E_IPC_TASK_ID_1 zero_msg = Some (E_IPC_SUCCESS, st2, m)
    ∧ eIPC_MsgType m = E_IPC_MSG_TYPE_2
    ∧ u32DataLen m = to_uint32 2
    ∧ u8Data m = take (Z.to_nat 2) [x68; x69] ++ drop (Z.to_nat 2) (u8Data slot)
    ∧ handler_of st2 E_IPC_TASK_ID_1 = Some h2
    ∧ queueSize (queue h2) = 0
    ∧ queueHead (queue h2)
      = (queueHead (queue demo_handler) + 1) mod IPC_MSG_QUEUE_LENGTH
    ∧ queueTail (queue h2) = queueHead (queue h2).
Proof.
  apply send_receive_round_trip.
  - apply wf_demo_state.
  - vm_compute. reflexivity.
  - reflexivity.
  - reflexivity.
  - reflexivity.
  - vm_compute. discriminate.
Defined.

(** ** Batches of messages *)

(** Receiving everything an inbox holds: the messages in order, with
    [E_IPC_RECV_MORE] for all but the last. *)
Lemma receive_n_all st id h c apBuf :
  wf_state st → handler_of st id = Some h → contents (queue h) = c →
  ∃ rs st' h',
    receive_n (length c) st id apBuf = Some (rs, st')
    ∧ rs.*2 = c ∧ rs.*1 = drain_codes (length c)
    ∧ wf_state st' ∧ handler_of st' id = Some h'
    ∧ contents (queue h') = [] ∧ queueSize (queue h') = 0.
Proof.
  revert st h apBuf. induction c as [|m c IH]; intros st h apBuf Hst Hh Hc.
  - exists [], st, h. simpl. split_and!; try done.
    destruct (handler_of_Some st id h Hst Hh) as (_ & _ & _ & Hq).
    pose proof (contents_length _ Hq) as Hl. rewrite Hc in Hl. simpl in Hl. lia.
  - destruct (IPC_receive_front st id h m c apBuf Hst Hh Hc)
      as (st1 & h1 & Hr & Hst1 & Hh1 & Hc1 & _).
    destruct (IH st1 h1 m Hst1 Hh1 Hc1)
      as (rs & st' & h' & Hn & Hrs & Hcodes & Hst' & Hh' & Hc' & Hz).
    eexists (_ :: rs), st', h'. simpl. rewrite Hr. simpl. rewrite Hn. simpl.
    split; [done|]. split; [by rewrite <- Hrs|]. split; [|done].
    change (list_fmap _ _ fst rs) with (rs.*1). rewrite Hcodes.
    destruct c as [|m' c']; [done|]. by destruct (decide _).
Qed.

(** A batch of sends into a queue that has room for all of them puts the
    messages behind those that the queue holds, in the order of the sends. *)
Lemma run_sends_append xTaskNotifyGive st id h (msgs : list sent) :
  wf_state st → handler_of st id = Some h → ring_ok (queue h) →
  queueSize (queue h) + Z.of_nat (length msgs) <= IPC_MSG_QUEUE_LENGTH →
  Forall (λ a : sent, 0 <= a.2 < IPC_MAX_DATA_LENGTH
                      ∧ a.2 <= Z.of_nat (length a.1.2)) msgs →
  ∃ tr st' h' ms,
    run st id (send_calls xTaskNotifyGive msgs) = Some (tr, st')
    ∧ wf_state st' ∧ handler_of st' id = Some h'
    ∧ ring_ok (queue h')
    ∧ contents (queue h') = contents (queue h) ++ ms
    ∧ Forall2 carries_sent ms msgs.
Proof.
  revert st h. induction msgs as [|a msgs IH]; intros st h Hst Hh Hring Hroom Hok.
  - exists [], st, h, []. simpl. rewrite app_nil_r. split_and!; done || constructor.
  - apply Forall_cons in Hok as [[Hn Hd] Hok]. simpl in Hroom.
    destruct (IPC_send_stores xTaskNotifyGive st id h a.1.1 a.1.2 a.2)
      as (slot & st1 & _ & Hsend & _); [done | done | lia | done |].
    assert (queueSize (queue h) < IPC_MSG_QUEUE_LENGTH) as Hroom0 by lia.
    destruct (IPC_send_appends _ _ _ _ _ _ _ _ _ Hst Hh Hring Hroom0 Hn Hsend)
      as (h1 & m & Hst1 & Hh1 & Hring1 & Hc1 & Hcar & Hsz1 & _).
    destruct (IH st1 h1 Hst1 Hh1 Hring1 ltac:(lia) Hok)
      as (tr & st' & h' & ms & Hrun & Hst' & Hh' & Hring' & Hc' & Hall).
    eexists (_ :: tr), st', h', (m :: ms). simpl. rewrite Hsend. simpl.
    rewrite Hrun. simpl. split_and!; try done.
    + by rewrite Hc', Hc1, <- app_assoc.
    + by constructor.
Qed.

(** X10: a batch of messages sent to a registered inbox that has room for
    all of them, then as many receives as the inbox holds messages: the
    receives hand over first the messages that were queued before and then
    the messages of the batch in the order of the sends, each with its
    type, size and payload bytes; all receives answer [E_IPC_RECV_MORE]
    except the last, which answers [E_IPC_SUCCESS], and the inbox is empty
    afterwards. *)
Theorem FIFO_batch xTaskNotifyGive st id h (msgs : list sent) apBuf :
  wf_state st → handler_of st id = Some h → ring_ok (queue h) →
  queueSize (queue h) + Z.of_nat (length msgs) <= IPC_MSG_QUEUE_LENGTH →
  Forall (λ a : sent, 0 <= a.2 < IPC_MAX_DATA_LENGTH
                      ∧ a.2 <= Z.of_nat (length a.1.2)) msgs →
  ∃ tr st1 rs st2 h2 ms,
    run st id (send_calls xTaskNotifyGive msgs) = Some (tr, st1)
    ∧ receive_n (Z.to_nat (queueSize (queue h)) + length msgs) st1 id apBuf
      = Some (rs, st2)
    ∧ rs.*2 = contents (queue h) ++ ms
    ∧ Forall2 carries_sent ms msgs
    ∧ rs.*1 = drain_codes (Z.to_nat (queueSize (queue h)) + length msgs)
    ∧ handler_of st2 id = Some h2 ∧ queueSize (queue h2) = 0.
Proof.
  intros Hst Hh Hring Hroom Hok.
  destruct (handler_of_Some st id h Hst Hh) as (_ & _ & _ & Hq).
  destruct (run_sends_append xTaskNotifyGive st id h msgs Hst Hh Hring Hroom Hok)
    as (tr & st1 & h1 & ms & Hrun & Hst1 & Hh1 & _ & Hc1 & Hall).
  destruct (receive_n_all st1 id h1 _ apBuf Hst1 Hh1 eq_refl)
    as (rs & st2 & h2 & Hn & Hrs & Hcodes & _ & Hh2 & _ & Hz).
  assert (length (contents (queue h1))
          = (Z.to_nat (queueSize (queue h)) + length msgs)%nat) as Hlen.
  { rewrite Hc1, length_app, (Forall2_length _ _ _ Hall).
    pose proof (contents_length _ Hq). lia. }
  rewrite Hlen in Hn, Hcodes.
  exists tr, st1, rs, st2, h2, ms. split_and!; try done. by rewrite Hrs.
Qed.

Lemma FIFO_batch_witness :
  ∃ tr st1 rs st2 h2 ms,
    run demo_state E_IPC_TASK_ID_1
      (send_calls notify_pass
         [(E_IPC_MSG_TYPE_1, [x68; x69], 2); (E_IPC_MSG_TYPE_2, [], 0);
          (E_IPC_MSG_TYPE_2, [x79; x6f; x00], 3)]) = Some (tr, st1)
    ∧ receive_n (Z.to_nat (queueSize (queue demo_handler))
                 + length [(E_IPC_MSG_TYPE_1, [x68; x69], 2);
                           (E_IPC_MSG_TYPE_2, [], 0);
                           (E_IPC_MSG_TYPE_2, [x79; x6f; x00], 3)])
        st1 E_IPC_TASK_ID_1 zero_msg = Some (rs, st2)
    ∧ rs.*2 = contents (queue demo_handler) ++ ms
    ∧ Forall2 carries_sent ms
        [(E_IPC_MSG_TYPE_1, [x68; x69], 2); (E_IPC_MSG_TYPE_2, [], 0);
         (E_IPC_MSG_TYPE_2, [x79; x6f; x00], 3)]
    ∧ rs.*1 = drain_codes (Z.to_nat (queueSize (queue demo_handler))
                           + length [(E_IPC_MSG_TYPE_1, [x68; x69], 2);
                                     (E_IPC_MSG_TYPE_2, [], 0);
                                     (E_IPC_MSG_TYPE_2, [x79; x6f; x00], 3)])
    ∧ handler_of st2 E_IPC_TASK_ID_1 = Some h2 ∧ queueSize (queue h2) = 0.
Proof.
  apply FIFO_batch.
  - apply wf_demo_state.
  - vm_compute. reflexivity.
  - vm_compute. split; [discriminate | reflexivity].
  - vm_compute. discriminate.
  - repeat constructor; vm_compute; discriminate.
Defined.

(** ** main.c *)

Lemma demo_task1_loop_spec n st h c msgBuff :
  wf_state st → handler_of st E_IPC_TASK_ID_1 = Some h →
  contents (queue h) = c →
  ∃ st' h' buf',
    demo_task1_loop n st msgBuff = Some (u8Data <$> take n c, st', buf')
    ∧ wf_state st' ∧ handler_of st' E_IPC_TASK_ID_1 = Some h'
    ∧ contents (queue h') = drop n c.
Proof.
  revert st h c msgBuff.
  induction n as [|n IH]; intros st h c msgBuff Hst Hh Hc; simpl.
  - exists st, h, msgBuff. by rewrite drop_0.
  - destruct c as [|m c].
    + destruct (handler_of_Some _ _ h Hst Hh) as (_ & _ & _ & Hq).
      pose proof (contents_length _ Hq) as Hl. rewrite Hc in Hl. simpl in Hl.
      rewrite (IPC_receive_empty st E_IPC_TASK_ID_1 h) by (done || lia). simpl.
      destruct (IH st h [] msgBuff Hst Hh Hc) as (st' & h' & buf' & -> & Hrest).
      simpl. exists st', h', buf'. rewrite take_nil. split; [done|].
      by rewrite drop_nil in Hrest.
    + destruct (IPC_receive_front st E_IPC_TASK_ID_1 h m c msgBuff Hst Hh Hc)
        as (st1 & h1 & -> & Hst1 & Hh1 & Hc1 & _). simpl.
      destruct (IH st1 h1 c m Hst1 Hh1 Hc1) as (st' & h' & buf' & -> & Hrest).
      simpl. exists st', h', buf'. split; [|done].
      by destruct (decide (c = [])).
Qed.

Lemma demo_task1_round_prints_aux eventsToProcess st h msgBuff :
  wf_state st → handler_of st E_IPC_TASK_ID_1 = Some h →
  0 <= eventsToProcess →
  ∃ st' h' buf',
    demo_task1_round eventsToProcess st msgBuff
    = Some (u8Data <$> take (Z.to_nat eventsToProcess) (contents (queue h)),
            st', buf')
    ∧ wf_state st' ∧ handler_of st' E_IPC_TASK_ID_1 = Some h'
    ∧ contents (queue h') = drop (Z.to_nat eventsToProcess) (contents (queue h)).
Proof.
  intros Hst Hh Hev. unfold demo_task1_round.
  destruct (Z.eqb_spec eventsToProcess 0) as [->|Hne]; simpl.
  - exists st, h, msgBuff. by rewrite drop_0.
  - apply (demo_task1_loop_spec (Z.to_nat eventsToProcess) st h _ msgBuff
             Hst Hh eq_refl).
Qed.

(** X11: one round of the task loop of [demo_task1] with [eventsToProcess]
    notifications taken: the buffers passed to [PRINTF] are the payload
    buffers of the first [eventsToProcess] messages of the inbox of task 1,
    oldest first; receives beyond the last queued message fail and print
    nothing, and the messages not yet received stay queued in order. *)
Theorem demo_task1_round_prints eventsToProcess st h msgBuff :
  wf_state st → handler_of st E_IPC_TASK_ID_1 = Some h →
  0 <= eventsToProcess →
  ∃ st' h' buf',
    demo_task1_round eventsToProcess st msgBuff
    = Some (u8Data <$> take (Z.to_nat eventsToProcess) (contents (queue h)),
            st', buf')
    ∧ handler_of st' E_IPC_TASK_ID_1 = Some h'
    ∧ contents (queue h') = drop (Z.to_nat eventsToProcess) (contents (queue h)).
Proof.
  intros Hst Hh Hev.
  destruct (demo_task1_round_prints_aux eventsToProcess st h msgBuff Hst Hh Hev)
    as (st' & h' & buf' & Heq & _ & Hh' & Hc').
  by exists st', h', buf'.
Qed.

Lemma demo_task1_round_prints_witness :
  ∃ h, handler_of (after demo_state E_IPC_TASK_ID_1 (sends 3)) E_IPC_TASK_ID_1
       = Some h
  ∧ ∃ st' h' buf',
    demo_task1_round 5 (after demo_state E_IPC_TASK_ID_1 (sends 3)) zero_msg
    = Some (u8Data <$> take (Z.to_nat 5) (contents (queue h)), st', buf')
    ∧ handler_of st' E_IPC_TASK_ID_1 = Some h'
    ∧ contents (queue h') = drop (Z.to_nat 5) (contents (queue h)).
Proof.
  eexists. split; [vm_compute; reflexivity|].
  apply demo_task1_round_prints.
  - apply wf_after, wf_demo_state.
  - vm_compute. reflexivity.
  - lia.
Defined.

Lemma demo_task2_rounds_append n xTaskNotifyGive st h :
  wf_state st → handler_of st E_IPC_TASK_ID_1 = Some h → ring_ok (queue h) →
  queueSize (queue h) + Z.of_nat n <= IPC_MSG_QUEUE_LENGTH →
  ∃ st' h' ms,
    demo_task2_rounds n xTaskNotifyGive st = Some st'
    ∧ wf_state st' ∧ handler_of st' E_IPC_TASK_ID_1 = Some h'
    ∧ contents (queue h') = contents (queue h) ++ ms
    ∧ length ms = n
    ∧ Forall (λ m, eIPC_MsgType m = E_IPC_MSG_TYPE_1
                   ∧ u32DataLen m = hello_world_size
                   ∧ take (length hello_world) (u8Data m) = hello_world) ms.
Proof.
  revert st h. induction n as [|n IH]; intros st h Hst Hh Hring Hroom.
  - exists st, h, []. simpl. rewrite app_nil_r. split_and!; done || constructor.
  - assert (0 <= hello_world_size < IPC_MAX_DATA_LENGTH) as Hn by done.
    assert (hello_world_size <= Z.of_nat (length hello_world)) as Hd by done.
    destruct (IPC_send_stores xTaskNotifyGive st E_IPC_TASK_ID_1 h E_IPC_MSG_TYPE_1
                hello_world hello_world_size)
      as (slot & st1 & _ & Hsend & _); [done | done | apply Hn | done |].
    assert (queueSize (queue h) < IPC_MSG_QUEUE_LENGTH) as Hroom0 by lia.
    destruct (IPC_send_appends _ _ _ _ _ _ _ _ _ Hst Hh Hring Hroom0 Hn Hsend)
      as (h1 & m & Hst1 & Hh1 & Hring1 & Hc1 & Hcar & Hsz1 & _).
    destruct (IH st1 h1 Hst1 Hh1 Hring1 ltac:(lia))
      as (st' & h' & ms & Hrun & Hst' & Hh' & Hc' & Hlen & Hall).
    exists st', h', (m :: ms). simpl. unfold demo_task2_round. rewrite Hsend.
    simpl. rewrite Hrun. split_and!; try done.
    + by rewrite Hc', Hc1, <- app_assoc.
    + by rewrite Hlen.
    + constructor; [|done]. destruct Hcar as (Ht & Hl & Hb). by split_and!.
Qed.

(** X12: the two demonstration tasks together.  With the inbox of task 1
    empty, [n] rounds of [demo_task2] (at most as many as the queue has
    slots), whatever [xTaskNotifyGive] answers, followed by a round of
    [demo_task1] with [n] notifications taken: [PRINTF] is called [n]
    times, each time with a buffer that starts with the bytes of
    "Hello world!" and the terminating zero, and the inbox is empty
    again. *)
Theorem demo_tasks_print_hello (n : nat) xTaskNotifyGive st h msgBuff :
  wf_state st → handler_of st E_IPC_TASK_ID_1 = Some h →
  queueSize (queue h) = 0 → queueTail (queue h) = queueHead (queue h) →
  Z.of_nat n <= IPC_MSG_QUEUE_LENGTH →
  ∃ st1 out st2 buf' h2,
    demo_task2_rounds n xTaskNotifyGive st = Some st1
    ∧ demo_task1_round (Z.of_nat n) st1 msgBuff = Some (out, st2, buf')
    ∧ length out = n
    ∧ Forall (λ o, take (length hello_world) o = hello_world) out
    ∧ handler_of st2 E_IPC_TASK_ID_1 = Some h2
    ∧ queueSize (queue h2) = 0.
Proof.
  intros Hst Hh Hz Hth Hn.
  destruct (handler_of_Some _ _ h Hst Hh) as (_ & _ & _ & Hq).
  assert (ring_ok (queue h)) as Hring.
  { destruct Hq as [_ _ _ Hhd _]. unfold ring_ok. rewrite Hz, Hth, Z.add_0_r.
    split; [done|]. by rewrite Z.mod_small. }
  assert (contents (queue h) = []) as Hc0.
  { pose proof (contents_length _ Hq) as Hl. rewrite Hz in Hl.
    by destruct (contents (queue h)). }
  destruct (demo_task2_rounds_append n xTaskNotifyGive st h Hst Hh Hring
              ltac:(lia))
    as (st1 & h1 & ms & Hrun & Hst1 & Hh1 & Hc1 & Hlen & Hall).
  rewrite Hc0 in Hc1. simpl in Hc1.
  destruct (demo_task1_round_prints_aux (Z.of_nat n) st1 h1 msgBuff Hst1 Hh1
              ltac:(lia)) as (st2 & h2 & buf' & Hround & Hst2 & Hh2 & Hc2).
  rewrite Nat2Z.id, Hc1 in Hround, Hc2.
  rewrite take_ge in Hround by lia. rewrite drop_ge in Hc2 by lia.
  exists st1, (u8Data <$> ms), st2, buf', h2. split_and!; try done.
  - by rewrite length_fmap.
  - apply Forall_fmap. eapply Forall_impl; [exact Hall|]. by intros m (_ & _ & ?).
  - destruct (handler_of_Some _ _ h2 Hst2 Hh2) as (_ & _ & _ & Hq2).
    pose proof (contents_length _ Hq2) as Hl. rewrite Hc2 in Hl. simpl in Hl. lia.
Qed.

Lemma demo_tasks_print_hello_witness :
  ∃ st1 out st2 buf' h2,
    demo_task2_rounds 3 notify_pass demo_state = Some st1
    ∧ demo_task1_round (Z.of_nat 3) st1 zero_msg = Some (out, st2, buf')
    ∧ length out = 3%nat
    ∧ Forall (λ o, take (length hello_world) o = hello_world) out
    ∧ handler_of st2 E_IPC_TASK_ID_1 = Some h2
    ∧ queueSize (queue h2) = 0.
Proof.
  apply (demo_tasks_print_hello 3 notify_pass demo_state demo_handler).
  - apply wf_demo_state.
  - vm_compute. reflexivity.
  - reflexivity.
  - reflexivity.
  - vm_compute. discriminate.
Defined.

(** ** Counters that wrap *)

Lemma run_sends_counters st id h calls :
  wf_state st → handler_of st id = Some h →
  Forall (λ c, stores c = true ∧ payload_ok c = true) calls →
  ∃ tr st' h',
    run st id calls = Some (tr, st')
    ∧ wf_state st' ∧ handler_of st' id = Some h'
    ∧ queueSize (queue h')
      = (queueSize (queue h) + Z.of_nat (length calls)) mod 256
    ∧ queueTail (queue h')
      = (queueTail (queue h) + Z.of_nat (length calls)) mod IPC_MSG_QUEUE_LENGTH
    ∧ queueHead (queue h') = queueHead (queue h).
Proof.
  revert st h. induction calls as [|c calls IH]; intros st h Hst Hh Hall.
  - destruct (handler_of_Some st id h Hst Hh) as (_ & _ & _ & [_ _ Ht _ Hs]).
    exists [], st, h. simpl. rewrite !Z.add_0_r, !Z.mod_small by done.
    by split_and!.
  - apply Forall_cons in Hall as [[Hs Hok] Hall].
    destruct c as [notify aType apData aDataSize|]; [|done]. simpl in Hs, Hok.
    apply Z.ltb_lt in Hs.
    destruct (IPC_send_stores notify st id h aType apData aDataSize)
      as (slot & st1 & _ & Hsend & Hst1 & Hh1); [done | done | done | |].
    { apply orb_true_iff in Hok as [?|?]; lia. }
    destruct (IH st1 _ Hst1 Hh1 Hall)
      as (tr & st' & h' & Hrun & Hst' & Hh' & Hsz & Htl & Hhd).
    eexists (_ :: tr), st', h'. simpl. rewrite Hsend. simpl. rewrite Hrun. simpl.
    simpl in Hsz, Htl, Hhd. split_and!; try done.
    + rewrite Hsz. unfold to_uint8. rewrite Zplus_mod_idemp_l. f_equal. lia.
    + rewrite Htl. rewrite Zplus_mod_idemp_l. f_equal. lia.
Qed.

(** X13: [k] sends in a row that pass the size check, to a registered
    inbox, move the count to [(queueSize + k) mod 256] and the tail to
    [(queueTail + k) mod IPC_MSG_QUEUE_LENGTH] and leave the head where it
    was, however many messages the inbox holds: the count is not capped at
    the number of slots, and 256 such sends bring count and tail back to
    their values. *)
Theorem sends_wrap_counters st id h calls :
  wf_state st → handler_of st id = Some h →
  Forall (λ c, stores c = true ∧ payload_ok c = true) calls →
  ∃ tr st' h',
    run st id calls = Some (tr, st')
    ∧ handler_of st' id = Some h'
    ∧ queueSize (queue h')
      = (queueSize (queue h) + Z.of_nat (length calls)) mod 256
    ∧ queueTail (queue h')
      = (queueTail (queue h) + Z.of_nat (length calls)) mod IPC_MSG_QUEUE_LENGTH
    ∧ queueHead (queue h') = queueHead (queue h)
    ∧ (length calls = 256%nat →
       queueSize (queue h') = queueSize (queue h)
       ∧ queueTail (queue h') = queueTail (queue h)).
Proof.
  intros Hst Hh Hall.
  destruct (run_sends_counters st id h calls Hst Hh Hall)
    as (tr & st' & h' & Hrun & _ & Hh' & Hsz & Htl & Hhd).
  exists tr, st', h'. split_and!; try done.
  intros Hlen. rewrite Hlen in Hsz, Htl.
  destruct (handler_of_Some st id h Hst Hh) as (_ & _ & _ & [_ _ Ht _ Hs]).
  unfold IPC_MSG_QUEUE_LENGTH in *. split.
  - rewrite Hsz. replace (Z.of_nat 256) with (1 * 256) by done.
    rewrite Z_mod_plus_full. by apply Z.mod_small.
  - rewrite Htl. replace (Z.of_nat 256) with (16 * 16) by done.
    rewrite Z_mod_plus_full. by apply Z.mod_small.
Qed.

Lemma sends_wrap_counters_witness :
  ∃ tr st' h',
    run demo_state E_IPC_TASK_ID_1 (sends 256) = Some (tr, st')
    ∧ handler_of st' E_IPC_TASK_ID_1 = Some h'
    ∧ queueSize (queue h')
      = (queueSize (queue demo_handler) + Z.of_nat (length (sends 256))) mod 256
    ∧ queueTail (queue h')
      = (queueTail (queue demo_handler) + Z.of_nat (length (sends 256)))
        mod IPC_MSG_QUEUE_LENGTH
    ∧ queueHead (queue h') = queueHead (queue demo_handler)
    ∧ (length (sends 256) = 256%nat →
       queueSize (queue h') = queueSize (queue demo_handler)
       ∧ queueTail (queue h') = queueTail (queue demo_handler)).
Proof.
  apply (sends_wrap_counters demo_state E_IPC_TASK_ID_1 demo_handler).
  - apply wf_demo_state.
  - vm_compute. reflexivity.
  - apply Forall_fmap, Forall_forall. intros k _. by vm_compute.
Defined.

(** ** Registering the tasks of an application *)

Lemma wf_api_after cs : wf_state (api_after cs).
Proof.
  unfold api_after. destruct start_state_invariant as [Hst Hok].
  destruct (api_run start_state cs) as [st|] eqn:Hrun; simpl; [|done].
  by destruct (api_run_invariant _ _ _ Hst Hok Hrun).
Qed.

Lemma create_list_appends st (tasks : list (IPC_eTaskID_t * TaskHandle_t)) :
  wf_state st →
  NoDup ((recvId <$> registered st) ++ tasks.*1) →
  Forall (λ t, t.2 ≠ NULL) tasks →
  IPC_u8HandlerCnt st + Z.of_nat (length tasks) <= IPC_HANDLER_CNT_MAX →
  ∃ st' hs,
    create_list st tasks = Some (replicate (length tasks) E_IPC_SUCCESS, st')
    ∧ wf_state st'
    ∧ IPC_u8HandlerCnt st' = IPC_u8HandlerCnt st + Z.of_nat (length tasks)
    ∧ registered st' = registered st ++ hs
    ∧ Forall2 (λ h t, recvId h = t.1 ∧ handle h = t.2
                      ∧ queueSize (queue h) = 0 ∧ queueHead (queue h) = 0
                      ∧ queueTail (queue h) = 0) hs tasks.
Proof.
  revert st. induction tasks as [|[id hd] tasks IH]; intros st Hst Hnd Hall Hroom.
  - exists st, []. simpl. rewrite app_nil_r, Z.add_0_r. split_and!; done || constructor.
  - apply Forall_cons in Hall as [Hhd Hall]. simpl in *.
    destruct (IPC_createHandler_result st id hd Hst)
      as (e & st1 & Hc & Hst1 & Hiff & Hsucc & _).
    assert (e = E_IPC_SUCCESS) as ->.
    { apply Hiff. split; [done|]. split; [lia|].
      apply NoDup_app in Hnd as (_ & Hdisj & _). intros Hin.
      apply (Hdisj _ Hin). left. }
    destruct (Hsucc eq_refl) as (Hcnt1 & h & Hreg1 & Hid & Hh & Hs & Hhq & Htq).
    destruct (IH st1 Hst1) as (st' & hs & Hrun & Hst' & Hcnt' & Hreg' & Hf2);
      [| done | lia |].
    { rewrite Hreg1, fmap_app, <- app_assoc. simpl. by rewrite Hid. }
    exists st', (h :: hs). rewrite Hc. simpl. rewrite Hrun. simpl.
    split_and!; try done.
    + lia.
    + by rewrite Hreg', Hreg1, <- app_assoc.
    + by constructor.
Qed.

(** X14: after [IPC_initIPCHandler], on whatever the table held before,
    the registration of up to [IPC_HANDLER_CNT_MAX] tasks with pairwise
    distinct task IDs and non-null handles succeeds for every task; the
    [k]-th task is then found at index [k], with its handle and an empty
    queue, so that nothing queued before the initialisation is left. *)
Theorem create_list_distinct st0 (tasks : list (IPC_eTaskID_t * TaskHandle_t)) :
  wf_state st0 →
  NoDup tasks.*1 →
  Forall (λ t, t.2 ≠ NULL) tasks →
  Z.of_nat (length tasks) <= IPC_HANDLER_CNT_MAX →
  ∃ st',
    create_list (IPC_initIPCHandler st0) tasks
    = Some (replicate (length tasks) E_IPC_SUCCESS, st')
    ∧ IPC_u8HandlerCnt st' = Z.of_nat (length tasks)
    ∧ ∀ (k : nat) id hd, tasks !! k = Some (id, hd) →
        IPC_getHandlerIdx st' id = Z.of_nat k
        ∧ ∃ h, handler_of st' id = Some h
               ∧ handle h = hd ∧ queueSize (queue h) = 0
               ∧ queueHead (queue h) = 0 ∧ queueTail (queue h) = 0.
Proof.
  intros Hst0 Hnd Hall Hlen.
  destruct (create_list_appends (IPC_initIPCHandler st0) tasks)
    as (st' & hs & Hrun & Hst' & Hcnt & Hreg & Hf2);
    [by apply wf_initIPCHandler | done | done | simpl; lia |].
  simpl in Hcnt, Hreg. exists st'. split; [done|]. split; [done|].
  intros k id hd Hk.
  destruct (Forall2_lookup_r _ _ _ _ _ Hf2 Hk) as (h & Hhk & Hid & Hh & Hs & Hhq & Htq).
  simpl in Hid, Hh.
  assert (recvId <$> registered st' = tasks.*1) as Hids.
  { rewrite Hreg. clear -Hf2. induction Hf2 as [|h t hs ts (Hid & _) _ IH]; [done|].
    rewrite !fmap_cons. by rewrite Hid, IH. }
  pose proof Hst' as [Hlen' _ Hcnt'].
  destruct (IPC_getHandlerIdx_first st' id ltac:(lia)) as [Hnone Hsome].
  assert (IPC_getHandlerIdx st' id ≠ -1) as Hne.
  { intros Hm. apply Hnone in Hm. apply Hm. rewrite Hids.
    apply list_elem_of_fmap. exists (id, hd). split; [done|].
    by eapply list_elem_of_lookup_2. }
  destruct (Hsome Hne) as (Hrange & Hat & _).
  assert (Z.to_nat (IPC_getHandlerIdx st' id) = k) as Hidx.
  { rewrite Hids in Hat. eapply NoDup_lookup; [exact Hnd | exact Hat |].
    by rewrite list_lookup_fmap, Hk. }
  split; [lia|]. exists h. split; [|done].
  unfold handler_of. destruct (Z.eqb_spec (IPC_getHandlerIdx st' id) (-1)); [done|].
  apply array_get_Some. split; [lia|]. rewrite Hidx.
  assert (registered st' !! k = Some h) as Hrk by (by rewrite Hreg).
  unfold registered in Hrk. rewrite lookup_take_lt in Hrk; [done|].
  apply lookup_lt_Some in Hk. lia.
Qed.

Lemma create_list_distinct_witness :
  ∃ st',
    create_list (IPC_initIPCHandler (api_after session))
      [(E_IPC_TASK_ID_2, 4098); (E_IPC_TASK_ID_1, 4097)]
    = Some (replicate (length [(E_IPC_TASK_ID_2, 4098); (E_IPC_TASK_ID_1, 4097)])
              E_IPC_SUCCESS, st')
    ∧ IPC_u8HandlerCnt st'
      = Z.of_nat (length [(E_IPC_TASK_ID_2, 4098); (E_IPC_TASK_ID_1, 4097)])
    ∧ ∀ (k : nat) id hd,
        [(E_IPC_TASK_ID_2, 4098); (E_IPC_TASK_ID_1, 4097)] !! k = Some (id, hd) →
        IPC_getHandlerIdx st' id = Z.of_nat k
        ∧ ∃ h, handler_of st' id = Some h
               ∧ handle h = hd ∧ queueSize (queue h) = 0
               ∧ queueHead (queue h) = 0 ∧ queueTail (queue h) = 0.
Proof.
  apply create_list_distinct.
  - apply wf_api_after.
  - apply NoDup_cons. split; [|apply NoDup_singleton].
    intros Hin%list_elem_of_singleton. discriminate.
  - repeat constructor; discriminate.
  - vm_compute. discriminate.
Defined.

(** ** The inbox as a first-in first-out list *)

Lemma run_io_fifo st id h calls :
  wf_state st → handler_of st id = Some h → ring_ok (queue h) →
  forallb size_ok calls = true →
  never_overfills (queueSize (queue h)) calls = true →
  ∃ out st' h',
    run_io st id calls = Some (out, st')
    ∧ wf_state st' ∧ handler_of st' id = Some h' ∧ ring_ok (queue h')
    ∧ fifo_trace (contents (queue h)) calls out (contents (queue h')).
Proof.
  revert st h. induction calls as [|c cs IH]; intros st h Hst Hh Hring Hok Hfit.
  - exists [], st, h. simpl. split_and!; done || constructor.
  - simpl in Hok, Hfit.
    apply andb_true_iff in Hok as [Hokc Hok].
    apply andb_true_iff in Hfit as [Hroom Hfit].
    destruct (handler_of_Some st id h Hst Hh) as (_ & _ & _ & Hq).
    destruct c as [notify aType apData aDataSize | apBuf]; simpl in *.
    + destruct (Z.ltb_spec aDataSize IPC_MAX_DATA_LENGTH) as [Hn|Hn].
      * apply Z.ltb_lt in Hroom.
        apply orb_true_iff in Hokc as [Hbig|Hd]; [lia|].
        apply andb_true_iff in Hd as [H0 Hd].
        assert (0 <= aDataSize < IPC_MAX_DATA_LENGTH) as Hn' by lia.
        destruct (IPC_send_stores notify st id h aType apData aDataSize)
          as (slot & st1 & _ & Hsend & _); [done | done | done | lia |].
        destruct (IPC_send_appends _ _ _ _ _ _ _ _ _ Hst Hh Hring Hroom Hn' Hsend)
          as (h1 & m & Hst1 & Hh1 & Hring1 & Hc1 & Hcar & Hsz1 & _).
        rewrite <- Hsz1 in Hfit.
        destruct (IH st1 h1 Hst1 Hh1 Hring1 Hok Hfit)
          as (out & st' & h' & Hrun & Hst' & Hh' & Hring' & Htrace).
        eexists (_ :: out), st', h'. rewrite Hsend. simpl. rewrite Hrun. simpl.
        split_and!; try done.
        eapply fifo_send; [done | exact Hcar |]. by rewrite <- Hc1.
      * destruct (IH st h Hst Hh Hring Hok Hfit)
          as (out & st' & h' & Hrun & Hst' & Hh' & Hring' & Htrace).
        unfold IPC_send.
        destruct (Z.leb_spec IPC_MAX_DATA_LENGTH aDataSize); [|lia]. simpl.
        eexists (_ :: out), st', h'. rewrite Hrun. simpl.
        split_and!; try done. by apply fifo_too_large.
    + destruct (contents (queue h)) as [|m l] eqn:Hc.
      * pose proof (contents_length _ Hq) as Hl. rewrite Hc in Hl. simpl in Hl.
        rewrite (IPC_receive_empty st id h) by (done || lia). simpl.
        replace (queueSize (queue h)) with 0 in Hfit by lia. simpl in Hfit.
        replace 0 with (queueSize (queue h)) in Hfit by lia.
        destruct (IH st h Hst Hh Hring Hok Hfit)
          as (out & st' & h' & Hrun & Hst' & Hh' & Hring' & Htrace).
        eexists (_ :: out), st', h'. rewrite Hrun. simpl.
        split_and!; try done. apply fifo_empty. by rewrite <- Hc.
      * destruct (IPC_receive_front st id h m l apBuf Hst Hh Hc)
          as (st1 & h1 & Hr & Hst1 & Hh1 & Hc1 & Hring1).
        rewrite Hr. simpl.
        destruct (handler_of_Some st1 id h1 Hst1 Hh1) as (_ & _ & _ & Hq1).
        pose proof (contents_length _ Hq) as Hl. rewrite Hc in Hl. simpl in Hl.
        pose proof (contents_length _ Hq1) as Hl1. rewrite Hc1 in Hl1.
        destruct (Z.eqb_spec (queueSize (queue h)) 0); [lia|].
        replace (queueSize (queue h) - 1) with (queueSize (queue h1)) in Hfit by lia.
        destruct (IH st1 h1 Hst1 Hh1 (Hring1 Hring) Hok Hfit)
          as (out & st' & h' & Hrun & Hst' & Hh' & Hring' & Htrace).
        eexists (_ :: out), st', h'. rewrite Hrun. simpl.
        split_and!; try done. apply fifo_receive. by rewrite <- Hc1.
Qed.

(** X15: a registered inbox in ring discipline that is never sent to while
    all its slots are taken behaves as a first-in first-out list, for every
    order of sends and receives: each send that passes the size check puts
    a message with the type, size and bytes sent behind the queued ones,
    each receive hands over the oldest queued message, answering
    [E_IPC_RECV_MORE] exactly when others remain, and a receive on the
    empty inbox fails and leaves the caller's buffer. *)
Theorem inbox_is_fifo st id h calls :
  wf_state st → handler_of st id = Some h → ring_ok (queue h) →
  forallb size_ok calls = true →
  never_overfills (queueSize (queue h)) calls = true →
  ∃ out st' h',
    run_io st id calls = Some (out, st')
    ∧ handler_of st' id = Some h'
    ∧ fifo_trace (contents (queue h)) calls out (contents (queue h')).
Proof.
  intros Hst Hh Hring Hok Hfit.
  destruct (run_io_fifo st id h calls Hst Hh Hring Hok Hfit)
    as (out & st' & h' & Hrun & _ & Hh' & _ & Htrace).
  by exists out, st', h'.
Qed.

Lemma inbox_is_fifo_witness :
  ∃ out st' h',
    run_io demo_state E_IPC_TASK_ID_1
      [Receive zero_msg;
       Send notify_pass E_IPC_MSG_TYPE_1 [x68; x69] 2;
       Send notify_fail E_IPC_MSG_TYPE_2 [x79; x6f; x00] 3;
       Send notify_pass E_IPC_MSG_TYPE_2 [] 512;
       Receive zero_msg; Receive zero_msg; Receive zero_msg]
    = Some (out, st')
    ∧ handler_of st' E_IPC_TASK_ID_1 = Some h'
    ∧ fifo_trace (contents (queue demo_handler))
        [Receive zero_msg;
         Send notify_pass E_IPC_MSG_TYPE_1 [x68; x69] 2;
         Send notify_fail E_IPC_MSG_TYPE_2 [x79; x6f; x00] 3;
         Send notify_pass E_IPC_MSG_TYPE_2 [] 512;
         Receive zero_msg; Receive zero_msg; Receive zero_msg]
        out (contents (queue h')).
Proof.
  apply inbox_is_fifo.
  - apply wf_demo_state.
  - vm_compute. reflexivity.
  - vm_compute. split; [discriminate | reflexivity].
  - reflexivity.
  - reflexivity.
Defined.
